(** * PageRank: a shallow embedding of [pagerank.py]

    The program estimates PageRank over a corpus of HTML pages in two ways:
    by sampling a random surfer ([sample_pagerank]) and by iterating the
    defining recurrence until it settles ([iterate_pagerank]); both rest on
    the link graph built by [crawl] and on [transition_model].

    Modelling choices.
    - A page is a file name ([string]); a set of links is a [gset string];
      the corpus, a Python [dict] from page to link set, is a
      [gmap string (gset string)], and so is every other dict of the program.
      Only the insertion order of a dict is lost, which none of the results
      below depends on.
    - Python floats are modelled by exact rationals ([Q], compared with
      [==]).  Rounding is therefore outside this development: the literal
      [0.001] is the rational [1/1000].  For a damping factor in [[0,1]]
      the floats of the program follow the rationals up to rounding; for
      one of large magnitude they do not ([1 - d] and [d] cancel), which
      is why results about the numbers computed are stated for damping
      factors in [[0,1]].
    - Python exceptions are values of [exn]; every subscript [d[k]] and every
      division [a / b] is checked the way the interpreter checks it.
    - The [while True] loop of [iterate_pagerank] takes a fuel argument;
      running out of fuel is [None], which is not a Python outcome.
    - The generator behind [random] is a stream of draws [nat -> Q], and
      [random.choice] and [random.choices] take one draw each.  CPython's
      [random.choice] draws bits instead, so which element a given stream
      selects, and how much of the stream is used, is particular to this
      development; the results hold for every stream.
    - A directory is the list of its file names with the text read from
      each; a directory with an entry that [open] or [read] fails on is
      not represented.
    - [main] takes [sys.argv], the file system and the generator as
      arguments and returns the lines it printed with the way it ended; the
      regular expression search and the number format [.4f] are
      parameters. *)

From Stdlib Require Import QArith Qabs Qround Qpower Lqa.
From stdpp Require Import gmap strings list fin_maps sorting pretty.

Open Scope Q_scope.

(** ** Python outcomes *)

Inductive exn : Set :=
  | KeyError
  | ZeroDivisionError
  | IndexError
  | ValueError.

Inductive result (A : Type) : Type :=
  | Ok (a : A)
  | Raise (e : exn).
Arguments Ok {A} a.
Arguments Raise {A} e.

#[global] Instance result_ret : MRet result := λ A a, Ok a.
#[global] Instance result_bind : MBind result := λ A B f r,
  match r with
  | Ok a => f a
  | Raise e => Raise e
  end.

(** [for x in l: s = body(s, x)], stopping at the first exception. *)
Fixpoint for_in {A S : Type} (l : list A) (body : S → A → result S) (s : S)
  : result S :=
  match l with
  | [] => Ok s
  | x :: l' => s' ← body s x; for_in l' body s'
  end.

(** [all(test(x) for x in l)]: stops at the first false test. *)
Fixpoint all_in {A : Type} (l : list A) (test : A → result bool) : result bool :=
  match l with
  | [] => Ok true
  | x :: l' => b ← test x; if b : bool then all_in l' test else Ok false
  end.

(** ** Dictionaries, sets and numbers *)

Abbreviation page := string (only parsing).
Abbreviation graph := (gmap string (gset string)) (only parsing).
Abbreviation ranks := (gmap string Q) (only parsing).

(** [list(d.keys())], [list(d.values())], [list(d.items())] *)
Definition items {V : Type} (m : gmap string V) : list (string * V) :=
  map_to_list m.
Definition keys {V : Type} (m : gmap string V) : list string := (items m).*1.
Definition values {V : Type} (m : gmap string V) : list V := (items m).*2.

(** [d[k]] *)
Definition getitem {V : Type} (m : gmap string V) (k : string) : result V :=
  match m !! k with
  | Some v => Ok v
  | None => Raise KeyError
  end.

(** [len(d)] and [len(s)], as the number they become in a division *)
Definition len {V : Type} (m : gmap string V) : Q := inject_Z (Z.of_nat (size m)).
Definition len_set (s : gset string) : Q := inject_Z (Z.of_nat (size s)).

(** Truth value of a set: [bool(s)] is [len(s) != 0]. *)
Definition truthy (s : gset string) : bool := negb (Nat.eqb (size s) 0).

(** [a / b] *)
Definition truediv (a b : Q) : result Q :=
  if Qeq_bool b 0 then Raise ZeroDivisionError else Ok (a / b).

(** [a < b] *)
Definition Qltb (a b : Q) : bool := negb (Qle_bool b a).

(** [sum(l)]: a left fold from the integer 0. *)
Definition Qsum (l : list Q) : Q := foldl Qplus 0 l.

(** ** [transition_model] *)

Definition transition_model (corpus : graph) (page : page) (damping_factor : Q)
  : result ranks :=
  let total_pages := len corpus in
  links ← getitem corpus page;
  if truthy links then
    let linked_pages := links in
    let num_links := len_set linked_pages in
    for_in (keys corpus) (λ probabilities p,
      base ← truediv (1 - damping_factor) total_pages;
      let probabilities := <[p := base]> probabilities in
      if bool_decide (p ∈ linked_pages) then
        cur ← getitem probabilities p;
        inc ← truediv damping_factor num_links;
        Ok (<[p := cur + inc]> probabilities)
      else Ok probabilities) ∅
  else
    for_in (keys corpus) (λ probabilities p,
      v ← truediv 1 total_pages;
      Ok (<[p := v]> probabilities)) ∅.

(** ** The random source *)

(** The generator state is the stream of the values [random.random()] will
    still return; each is expected in [[0,1)]. *)
Abbreviation rng := (nat → Q) (only parsing).

Definition valid_rng (g : rng) : Prop := ∀ i, 0 <= g i ∧ g i < 1.

Definition random (g : rng) : Q * rng := (g O, λ i, g (S i)).

(** [random.choice(seq)]: [IndexError] on an empty sequence, else the
    element at a uniformly drawn index, here [floor(u * len(seq))] for the
    next draw [u]. *)
Definition random_choice {A : Type} (seq : list A) (g : rng) : result (A * rng) :=
  match seq with
  | [] => Raise IndexError
  | _ =>
    let '(u, g') := random g in
    match seq !! Z.to_nat (Qfloor (u * inject_Z (Z.of_nat (length seq)))) with
    | Some x => Ok (x, g')
    | None => Raise IndexError
    end
  end.

(** [itertools.accumulate(weights)] *)
Fixpoint accumulate_from (acc : Q) (weights : list Q) : list Q :=
  match weights with
  | [] => []
  | w :: ws => (acc + w) :: accumulate_from (acc + w) ws
  end.
Definition accumulate (weights : list Q) : list Q :=
  match weights with
  | [] => []
  | w :: ws => w :: accumulate_from w ws
  end.

(** [bisect.bisect_right(a, x, lo, hi)]; [steps] bounds the halvings and
    [hi - lo] of them are always enough. *)
Fixpoint bisect_right (steps : nat) (a : list Q) (x : Q) (lo hi : nat)
  : result nat :=
  match steps with
  | O => Ok lo
  | S steps' =>
    if (lo <? hi)%nat then
      let mid := ((lo + hi) / 2)%nat in
      match a !! mid with
      | None => Raise IndexError
      | Some am =>
        if Qltb x am then bisect_right steps' a x lo mid
        else bisect_right steps' a x (mid + 1)%nat hi
      end
    else Ok lo
  end.

(** [random.choices(population, weights, k=1)[0]]: the running totals of
    the weights, a [ValueError] unless their last one is positive, and a
    search for [u * total] among them. *)
Definition random_choices {A : Type} (population : list A) (weights : list Q)
  (g : rng) : result (A * rng) :=
  let n := length population in
  let cum_weights := accumulate weights in
  if negb (Nat.eqb (length cum_weights) n) then Raise ValueError else
  match last cum_weights with
  | None => Raise IndexError
  | Some total =>
    if Qle_bool total 0 then Raise ValueError else
    let '(u, g') := random g in
    let hi := (n - 1)%nat in
    i ← bisect_right (hi - 0) cum_weights (u * total) 0 hi;
    match population !! i with
    | Some x => Ok (x, g')
    | None => Raise IndexError
    end
  end.

(** ** [sample_pagerank] *)

(** One pass of the body of [for _ in range(n)]; the loop state is the
    counters, the current page and the generator. *)
Definition sample_step (corpus : graph) (damping_factor : Q)
  (st : gmap string Z * string * rng) : result (gmap string Z * string * rng) :=
  let '(page_counts, page, g) := st in
  c ← getitem page_counts page;
  let page_counts := <[page := (c + 1)%Z]> page_counts in
  model ← transition_model corpus page damping_factor;
  '(page', g') ← random_choices (keys model) (values model) g;
  Ok (page_counts, page', g').

Definition sample_pagerank (corpus : graph) (damping_factor : Q) (n : Z) (g : rng)
  : result (ranks * rng) :=
  let page_counts : gmap string Z :=
    foldl (λ acc page, <[page := 0%Z]> acc) ∅ (keys corpus) in
  '(page, g) ← random_choice (keys corpus) g;
  '(page_counts, _, g) ←
    for_in (seq 0 (Z.to_nat n)) (λ st _, sample_step corpus damping_factor st)
      (page_counts, page, g);
  pageranks ← for_in (items page_counts) (λ acc '(page, count),
      v ← truediv (inject_Z count) (inject_Z n);
      Ok (<[page := v]> acc)) ∅;
  Ok (pageranks, g).

(** ** [iterate_pagerank] *)

Definition convergence_threshold : Q := 1 # 1000.

(** The pages without links; the program computes this set and never
    reads it. *)
Definition no_link_pages (corpus : graph) : gset string :=
  dom (filter (λ kv, truthy kv.2 = false) corpus).

(** The inner loop and line 122: the new rank of [page]. *)
Definition new_rank_of (corpus : graph) (damping_factor N : Q) (pagerank : ranks)
  (page : page) : result Q :=
  total ← for_in (keys corpus) (λ total potential_linker,
    links ← getitem corpus potential_linker;
    if negb (truthy links) then
      pr ← getitem pagerank potential_linker;
      c ← truediv pr N;
      Ok (total + c)
    else if bool_decide (page ∈ links) then
      pr ← getitem pagerank potential_linker;
      c ← truediv pr (len_set links);
      Ok (total + c)
    else Ok total) 0;
  base ← truediv (1 - damping_factor) N;
  Ok (base + damping_factor * total).

(** Lines 113-122: one round over all pages. *)
Definition compute_round (corpus : graph) (damping_factor N : Q) (pagerank : ranks)
  : result ranks :=
  for_in (keys corpus) (λ new_rank page,
    v ← new_rank_of corpus damping_factor N pagerank page;
    Ok (<[page := v]> new_rank)) ∅.

(** Line 125: the convergence test. *)
Definition converged (new_rank pagerank : ranks) : result bool :=
  all_in (keys pagerank) (λ page,
    new ← getitem new_rank page;
    old ← getitem pagerank page;
    Ok (Qltb (Qabs (new - old)) convergence_threshold)).

(** How one pass of the [while True] body ends. *)
Inductive control : Type :=
  | Break (pagerank : ranks)
  | Continue (pagerank : ranks).

Definition loop_body (corpus : graph) (damping_factor N : Q) (pagerank : ranks)
  : result control :=
  new_rank ← compute_round corpus damping_factor N pagerank;
  stop ← converged new_rank pagerank;
  if stop : bool then Ok (Break pagerank) else Ok (Continue new_rank).

Fixpoint while_true (fuel : nat) (corpus : graph) (damping_factor N : Q)
  (pagerank : ranks) : option (result ranks) :=
  match fuel with
  | O => None
  | S fuel' =>
    match loop_body corpus damping_factor N pagerank with
    | Raise e => Some (Raise e)
    | Ok (Break pagerank) => Some (Ok pagerank)
    | Ok (Continue pagerank) => while_true fuel' corpus damping_factor N pagerank
    end
  end.

(** Lines 131-133: divide every rank by the sum of all ranks, in place. *)
Definition normalize (pagerank : ranks) : result ranks :=
  let total_sum := Qsum (values pagerank) in
  for_in (keys pagerank) (λ pagerank page,
    v ← getitem pagerank page;
    v' ← truediv v total_sum;
    Ok (<[page := v']> pagerank)) pagerank.

(** Line 106: the initial ranks. *)
Definition initial_rank (corpus : graph) (N : Q) : result ranks :=
  for_in (keys corpus) (λ pagerank page,
    v ← truediv 1 N;
    Ok (<[page := v]> pagerank)) ∅.

Definition iterate_pagerank (fuel : nat) (corpus : graph) (damping_factor : Q)
  : option (result ranks) :=
  let N := len corpus in
  match initial_rank corpus N with
  | Raise e => Some (Raise e)
  | Ok pagerank =>
    let _ := no_link_pages corpus in
    match while_true fuel corpus damping_factor N pagerank with
    | None => None
    | Some (Raise e) => Some (Raise e)
    | Some (Ok pagerank) => Some (normalize pagerank)
    end
  end.

(** ** [crawl] *)

(** [s.endswith(suffix)] *)
Definition endswith (s suffix : string) : bool :=
  let n := String.length s in
  let k := String.length suffix in
  (k <=? n)%nat && String.eqb (String.substring (n - k) k s) suffix.

Section crawl.
(** [re.findall(pattern, contents)] for the pattern of line 38; the regular
    expression engine is Python's and stays a parameter. *)
Variable findall : string → list string.

(** A directory is what [os.listdir] and reading each file give: file
    names with their contents. *)
Definition crawl (directory : list (string * string)) : result graph :=
  pages ← for_in directory (λ pages '(filename, contents),
    if negb (endswith filename ".html") then Ok pages
    else
      let links := findall contents in
      Ok (<[filename := list_to_set links ∖ {[filename]}]> pages)) ∅;
  for_in (keys pages) (λ pages filename,
    links ← getitem pages filename;
    Ok (<[filename := filter (λ link, link ∈ dom pages) links]> pages)) pages.
End crawl.

(** * Vocabulary of the specification *)

(** The data-model invariant of a link graph. *)
Definition closed_universe (corpus : graph) : Prop :=
  ∀ p links, corpus !! p = Some links → links ⊆ dom corpus.
Definition no_self_links (corpus : graph) : Prop :=
  ∀ p links, corpus !! p = Some links → p ∉ links.

(** [sum_over l f] is the mathematical sum of [f x] for [x] in [l]. *)
Definition sum_over {A : Type} (l : list A) (f : A → Q) : Q := Qsum (f <$> l).

(** The probability [transition_model] gives page [q] when the current page
    has the link set [links]. *)
Definition transition_value (corpus : graph) (links : gset string) (d : Q)
  (q : string) : Q :=
  if truthy links then
    if bool_decide (q ∈ links)
    then (1 - d) / len corpus + d / len_set links
    else (1 - d) / len corpus
  else 1 / len corpus.

(** [PR(q)]: the rank a mapping gives a page. *)
Definition rank_of (pagerank : ranks) (q : string) : Q := default 0 (pagerank !! q).

(** The links of a page, and their number [L(q)]. *)
Definition links_of (corpus : graph) (q : string) : gset string :=
  default ∅ (corpus !! q).

(** What page [q] contributes to the new rank of page [p], in the words of
    the specification: [PR(q)/N] if [q] has no outbound links, else
    [PR(q)/L(q)] if [q] links to [p], else nothing. *)
Definition contribution (corpus : graph) (PR : string → Q) (p q : string) : Q :=
  if decide (links_of corpus q = ∅) then PR q / len corpus
  else if decide (p ∈ links_of corpus q) then PR q / len_set (links_of corpus q)
  else 0.

(** The new rank of [p] in the words of the specification: the sum of the
    contributions, scaled by the damping, plus [(1 - d)/N]. *)
Definition spec_new_rank (corpus : graph) (d : Q) (PR : string → Q) (p : string) : Q :=
  (1 - d) / len corpus + d * sum_over (keys corpus) (contribution corpus PR p).

(** Every page moved by less than the threshold between two rounds. *)
Definition all_settled (new_rank pagerank : ranks) : Prop :=
  ∀ p, p ∈ dom pagerank →
    Qabs (rank_of new_rank p - rank_of pagerank p) < convergence_threshold.

(** The share of the rank of [q] that flows to [p] in one round. *)
Definition weight (corpus : graph) (p q : string) : Q :=
  if decide (links_of corpus q = ∅) then / len corpus
  else if decide (p ∈ links_of corpus q) then / len_set (links_of corpus q)
  else 0.

(** The total change between two rank mappings. *)
Definition distance (corpus : graph) (x y : ranks) : Q :=
  sum_over (keys corpus) (λ p, Qabs (rank_of y p - rank_of x p)).

(** A rank mapping over the pages of the graph with every rank positive. *)
Definition positive_ranks (corpus : graph) (x : ranks) : Prop :=
  dom x = dom corpus ∧ ∀ p, p ∈ dom corpus → 0 < rank_of x p.

(** The number of visits a counter dict holds for a page. *)
Definition count_of (page_counts : gmap string Z) (p : string) : Q :=
  inject_Z (default 0%Z (page_counts !! p)).

(** The state of the sampling loop after [i] passes: a counter for every
    page, a current page of the graph, and [i] visits counted in all. *)
Definition sample_inv (corpus : graph) (i : nat)
  (st : gmap string Z * string * (nat → Q)) : Prop :=
  dom st.1.1 = dom corpus ∧ st.1.2 ∈ dom corpus ∧
  sum_over (keys corpus) (count_of st.1.1) == inject_Z (Z.of_nat i).

(** The rank mapping the loop holds after [k] rounds were adopted. *)
Fixpoint adopted (corpus : graph) (d : Q) (k : nat) : result ranks :=
  match k with
  | O => initial_rank corpus (len corpus)
  | S k' => pagerank ← adopted corpus d k'; compute_round corpus d (len corpus) pagerank
  end.

(** The mapping an outcome of [iterate_pagerank] carries, if it carries one. *)
Definition returned (o : option (result ranks)) : ranks :=
  match o with
  | Some (Ok r) => r
  | _ => ∅
  end.

(** ** Example graphs *)

(** [{A: {B}, B: {C}, C: {A}}] *)
Definition cycle3 : graph :=
  <["A" := {["B"]}]> (<["B" := {["C"]}]> (<["C" := {["A"]}]> ∅)).

(** [{A: set(), B: {A}}] *)
Definition dead_end : graph :=
  <["A" := ∅]> (<["B" := {["A"]}]> ∅).

(** [{A: {B}, B: {A}, C: {A}}] *)
Definition flip_flop : graph :=
  <["A" := {["B"]}]> (<["B" := {["A"]}]> (<["C" := {["A"]}]> ∅)).


(** [{A: {B}}]: the link to [B] leaves the graph. *)
Definition dangling : graph := <["A" := {["B"]}]> ∅.

(** A generator that always returns one half. *)
Definition half_rng : nat → Q := λ _, 1 # 2.


(** ** [main] *)

Definition DAMPING : Q := 85 # 100.
Definition SAMPLES : Z := 10000.

(** [sorted(d)]: the keys in ascending order. *)
Definition sorted {V : Type} (m : gmap string V) : list string :=
  merge_sort String.le (keys m).

(** How a run of the program ends: normally, through [sys.exit(message)],
    or with an exception nobody catches. *)
Inductive ending : Type :=
  | Finished
  | SystemExit (message : string)
  | Uncaught (e : exn).

Section main.
(** [re.findall] as in [crawl], the files found under a path, and the
    format [f"{x:.4f}"] of a number. *)
Variable findall : string → list string.
Variable filesystem : string → list (string * string).
Variable format_4f : Q → string.

(** The [for page in sorted(ranks): print(...)] loops of lines 16-17 and
    20-21; [stdout] collects the lines printed so far. *)
Fixpoint print_ranks (ranks : ranks) (pages : list string) (stdout : list string)
  : list string * option exn :=
  match pages with
  | [] => (stdout, None)
  | page :: pages' =>
    match getitem ranks page with
    | Raise e => (stdout, Some e)
    | Ok v =>
      print_ranks ranks pages'
        (stdout ++ [("  " +:+ page +:+ ": " +:+ format_4f v)%string])
    end
  end.

(** [main()] with [sys.argv] and the generator as arguments; the result is
    what was printed and how the run ended. *)
Definition main (fuel : nat) (argv : list string) (g : rng)
  : option (list string * ending) :=
  if negb (Nat.eqb (length argv) 2)
  then Some ([], SystemExit "Usage: python pagerank.py corpus") else
  match argv !! 1%nat with
  | None => Some ([], Uncaught IndexError)
  | Some directory =>
  match crawl findall (filesystem directory) with
  | Raise e => Some ([], Uncaught e)
  | Ok corpus =>
  match sample_pagerank corpus DAMPING SAMPLES g with
  | Raise e => Some ([], Uncaught e)
  | Ok (ranks, _) =>
  let stdout :=
    [("PageRank Results from Sampling (n = " +:+ pretty SAMPLES +:+ ")")%string] in
  match print_ranks ranks (sorted ranks) stdout with
  | (stdout, Some e) => Some (stdout, Uncaught e)
  | (stdout, None) =>
  match iterate_pagerank fuel corpus DAMPING with
  | None => None
  | Some (Raise e) => Some (stdout, Uncaught e)
  | Some (Ok ranks) =>
  let stdout := stdout ++ ["PageRank Results from Iteration"%string] in
  match print_ranks ranks (sorted ranks) stdout with
  | (stdout, Some e) => Some (stdout, Uncaught e)
  | (stdout, None) => Some (stdout, Finished)
  end end end end end end.
End main.


(** ** Further vocabulary *)

(** Every page receives in all exactly one page's worth of rank. *)
Definition balanced (corpus : graph) : Prop :=
  ∀ p, p ∈ dom corpus → sum_over (keys corpus) (λ q, weight corpus p q) == 1.

(** The names in a directory that end in [.html]. *)
Definition html_names (directory : list (string * string)) : gset string :=
  list_to_set (filter (λ name, endswith name ".html" = true) (directory.*1)).

(** The links [crawl] keeps for a file, given the pages of the corpus. *)
Definition kept_links (findall : string → list string) (pages : gset string)
  (filename contents : string) : gset string :=
  filter (λ link, link ∈ pages) (list_to_set (findall contents) ∖ {[filename]}).

(** The line [main] prints for a page. *)
Definition row (format_4f : Q → string) (ranks : ranks) (page : string) : string :=
  ("  " +:+ page +:+ ": " +:+ format_4f (rank_of ranks page))%string.

(** [{a.html: {b.html}, b.html: {a.html}}] as a directory, with a file that
    is no page, and a search that takes every word for a link. *)
Definition toy_directory : list (string * string) :=
  [("b.html", "a.html c.html b.html"); ("a.html", "b.html");
   ("notes.txt", "a.html")]%string.
Definition toy_findall (contents : string) : list string := String.words contents.

(** The state of the sampling loop after [i] passes, with what it has
    taken from the generator [g]: every counter non-negative and [i + 1]
    draws used. *)
Definition sample_state (corpus : graph) (g : nat → Q) (i : nat)
  (st : gmap string Z * string * (nat → Q)) : Prop :=
  sample_inv corpus i st ∧
  (∀ p c, st.1.1 !! p = Some c → (0 <= c)%Z) ∧
  ∀ j, st.2 j = g (S i + j)%nat.

(** What a run of [sample_pagerank] returned, if it returned. *)
Definition sampled (o : result (gmap string Q * (nat → Q)))
  : gmap string Q * (nat → Q) :=
  match o with
  | Ok rg => rg
  | Raise _ => (∅, λ _, 0)
  end.

(** The dict [crawl] holds after its first loop. *)
Definition first_pass (findall : string → list string)
  (directory : list (string * string)) : graph :=
  foldl (λ pages fc,
    if negb (endswith fc.1 ".html") then pages
    else <[fc.1 := list_to_set (findall fc.2) ∖ {[fc.1]}]> pages) ∅ directory.

(** * Reasoning about the loops *)

Section loops.
Context {A S : Type}.
Implicit Types (l : list A) (body : S → A → result S).

(** A loop whose body never raises is a left fold. *)
Lemma for_in_foldl (g : S → A → S) l body s :
  (∀ s x, x ∈ l → body s x = Ok (g s x)) →
  for_in l body s = Ok (foldl g s l).
Proof.
  revert s. induction l as [|x l IH]; intros s Hb; simpl; [done|].
  rewrite Hb by left. simpl. apply IH. intros. apply Hb. by right.
Qed.

(** The same under an invariant of the loop state. *)
Lemma for_in_foldl_inv (I : S → Prop) (g : S → A → S) l body s :
  I s →
  (∀ s x, I s → x ∈ l → body s x = Ok (g s x) ∧ I (g s x)) →
  for_in l body s = Ok (foldl g s l) ∧ I (foldl g s l).
Proof.
  revert s. induction l as [|x l IH]; intros s Hs Hb; simpl; [done|].
  destruct (Hb s x Hs) as [-> HI]; [left|]. simpl.
  apply IH; [done|]. intros. apply Hb; [done|by right].
Qed.

(** Invariant indexed by the number of passes already made. *)
Lemma for_in_invariant (I : nat → S → Prop) l body s :
  I O s →
  (∀ i x s, l !! i = Some x → I i s → ∃ s', body s x = Ok s' ∧ I (Datatypes.S i) s') →
  ∃ s', for_in l body s = Ok s' ∧ I (length l) s'.
Proof.
  revert I s. induction l as [|x l IH]; intros I s H0 Hstep; simpl.
  { eauto. }
  destruct (Hstep O x s eq_refl H0) as (s1 & -> & H1). simpl.
  apply (IH (λ i, I (Datatypes.S i))); [done|].
  intros i y s2 Hy. apply (Hstep (Datatypes.S i)). done.
Qed.
End loops.

Lemma all_in_Ok {A : Type} (l : list A) (test : A → result bool) (t : A → bool) :
  (∀ x, x ∈ l → test x = Ok (t x)) →
  all_in l test = Ok (forallb t l).
Proof.
  induction l as [|x l IH]; intros Ht; simpl; [done|].
  rewrite Ht by left. simpl. destruct (t x); simpl; [|done].
  apply IH. intros. apply Ht. by right.
Qed.

(** * Sums of rationals *)

Lemma foldl_Qplus_acc (a : Q) (l : list Q) : foldl Qplus a l == a + Qsum l.
Proof.
  unfold Qsum. revert a. induction l as [|x l IH]; intros a; simpl; [lra|].
  rewrite (IH (a + x)), (IH (0 + x)). lra.
Qed.

Lemma Qsum_nil : Qsum [] = 0.
Proof. done. Qed.

Lemma Qsum_cons (x : Q) (l : list Q) : Qsum (x :: l) == x + Qsum l.
Proof. unfold Qsum at 1. simpl. rewrite foldl_Qplus_acc. lra. Qed.

Lemma sum_over_nil {A : Type} (f : A → Q) : sum_over [] f = 0.
Proof. done. Qed.

Ltac sum_nil :=
  rewrite ?sum_over_nil; cbn [length filter list_filter Z.of_nat inject_Z];
  first [lra | ring | apply Qabs_case; lra].

Section sum_over.
Context {A : Type}.
Implicit Types (l : list A) (f g : A → Q).

Lemma sum_over_cons x l f : sum_over (x :: l) f == f x + sum_over l f.
Proof. unfold sum_over. rewrite fmap_cons. apply Qsum_cons. Qed.

Lemma sum_over_ext l f g :
  (∀ x, x ∈ l → f x == g x) → sum_over l f == sum_over l g.
Proof.
  induction l as [|x l IH]; intros H; [done|].
  rewrite !sum_over_cons, IH, (H x); [lra|left|].
  intros. apply H. by right.
Qed.

Lemma sum_over_le l f g :
  (∀ x, x ∈ l → f x <= g x) → sum_over l f <= sum_over l g.
Proof.
  induction l as [|x l IH]; intros H; [sum_nil|].
  rewrite !sum_over_cons.
  assert (f x <= g x) by (apply H; left).
  assert (sum_over l f <= sum_over l g) by (apply IH; intros; apply H; by right).
  lra.
Qed.

Lemma sum_over_nonneg l f : (∀ x, x ∈ l → 0 <= f x) → 0 <= sum_over l f.
Proof.
  induction l as [|x l IH]; intros H; [sum_nil|].
  rewrite sum_over_cons.
  assert (0 <= f x) by (apply H; left).
  assert (0 <= sum_over l f) by (apply IH; intros; apply H; by right).
  lra.
Qed.

Lemma sum_over_elem_le l f x :
  (∀ y, y ∈ l → 0 <= f y) → x ∈ l → f x <= sum_over l f.
Proof.
  induction l as [|y l IH]; intros H Hx; [by apply elem_of_nil in Hx|].
  rewrite sum_over_cons.
  assert (0 <= f y) by (apply H; left).
  assert (0 <= sum_over l f) by (apply sum_over_nonneg; intros; apply H; by right).
  apply elem_of_cons in Hx as [->|Hx]; [lra|].
  assert (f x <= sum_over l f) by (apply IH; [intros; apply H; by right|done]).
  lra.
Qed.

Lemma sum_over_plus l f g :
  sum_over l (λ x, f x + g x) == sum_over l f + sum_over l g.
Proof.
  induction l as [|x l IH]; [sum_nil|].
  rewrite !sum_over_cons, IH. lra.
Qed.

Lemma sum_over_minus l f g :
  sum_over l (λ x, f x - g x) == sum_over l f - sum_over l g.
Proof.
  induction l as [|x l IH]; [sum_nil|].
  rewrite !sum_over_cons, IH. lra.
Qed.

Lemma sum_over_scal l c f : sum_over l (λ x, c * f x) == c * sum_over l f.
Proof.
  induction l as [|x l IH]; [sum_nil|].
  rewrite !sum_over_cons, IH. ring.
Qed.

Lemma sum_over_scal_r l c f : sum_over l (λ x, f x * c) == sum_over l f * c.
Proof.
  induction l as [|x l IH]; [sum_nil|].
  rewrite !sum_over_cons, IH. ring.
Qed.

Lemma sum_over_const l c :
  sum_over l (λ _, c) == inject_Z (Z.of_nat (length l)) * c.
Proof.
  induction l as [|x l IH]; [sum_nil|].
  rewrite sum_over_cons, IH. cbn [length].
  rewrite Nat2Z.inj_succ, <- Z.add_1_r, inject_Z_plus. ring.
Qed.

Lemma sum_over_zero l : sum_over l (λ _, 0) == 0.
Proof. rewrite sum_over_const. ring. Qed.

Lemma sum_over_abs l f : Qabs (sum_over l f) <= sum_over l (λ x, Qabs (f x)).
Proof.
  induction l as [|x l IH]; [sum_nil|].
  rewrite !sum_over_cons.
  eapply Qle_trans; [apply Qabs_triangle|]. lra.
Qed.

Lemma sum_over_Permutation l1 l2 f : l1 ≡ₚ l2 → sum_over l1 f == sum_over l2 f.
Proof.
  induction 1 as [|x l1 l2 _ IH|x y l|l1 l2 l3 _ IH1 _ IH2].
  - done.
  - rewrite !sum_over_cons, IH. lra.
  - rewrite !sum_over_cons. lra.
  - by rewrite IH1.
Qed.

(** Summing a constant over the members of [l] that satisfy [P]. *)
Lemma sum_over_indicator (P : A → Prop) `{!∀ x, Decision (P x)} l c :
  sum_over l (λ x, if bool_decide (P x) then c else 0)
  == inject_Z (Z.of_nat (length (filter P l))) * c.
Proof.
  induction l as [|x l IH]; [sum_nil|].
  rewrite sum_over_cons, IH, filter_cons.
  destruct (decide (P x)) as [HP|HP].
  - rewrite bool_decide_true by done. cbn [length].
    rewrite Nat2Z.inj_succ, <- Z.add_1_r, inject_Z_plus. ring.
  - rewrite bool_decide_false by done. ring.
Qed.
End sum_over.

Lemma sum_over_swap {A B : Type} (la : list A) (lb : list B) (f : A → B → Q) :
  sum_over la (λ a, sum_over lb (λ b, f a b))
  == sum_over lb (λ b, sum_over la (λ a, f a b)).
Proof.
  induction la as [|a la IH].
  - rewrite sum_over_nil. symmetry.
    transitivity (sum_over lb (λ _, 0)); [by apply sum_over_ext|apply sum_over_zero].
  - rewrite sum_over_cons, IH.
    rewrite <- sum_over_plus. apply sum_over_ext. intros b _.
    by rewrite sum_over_cons.
Qed.

Lemma Qsum_values_keys (l : list (string * Q)) (f : string → Q) :
  Forall (λ kv, kv.2 == f kv.1) l → Qsum (l.*2) == sum_over (l.*1) f.
Proof.
  induction 1 as [|[k v] l Hkv _ IH]; [done|].
  rewrite !fmap_cons, sum_over_cons, Qsum_cons, IH. simpl in *. lra.
Qed.

(** * Dictionaries *)

Section dicts.
Context {V : Type}.
Implicit Types (m : gmap string V) (p : string).

Lemma elem_of_keys m p : p ∈ keys m ↔ p ∈ dom m.
Proof.
  unfold keys, items. rewrite elem_of_dom, list_elem_of_fmap. split.
  - intros ([k v] & -> & H). apply elem_of_map_to_list in H. by exists v.
  - intros [v H]. exists (p, v). split; [done|]. by apply elem_of_map_to_list.
Qed.

Lemma NoDup_keys m : NoDup (keys m).
Proof. apply NoDup_fst_map_to_list. Qed.

Lemma length_keys m : length (keys m) = size m.
Proof. unfold keys, items. by rewrite length_fmap, length_map_to_list. Qed.

Lemma keys_empty : keys (∅ : gmap string V) = [].
Proof. unfold keys, items. by rewrite map_to_list_empty. Qed.

Lemma getitem_Some m p v : m !! p = Some v → getitem m p = Ok v.
Proof. unfold getitem. by intros ->. Qed.

Lemma getitem_None m p : m !! p = None → getitem m p = Raise KeyError.
Proof. unfold getitem. by intros ->. Qed.

Lemma len_nonneg m : 0 <= len m.
Proof.
  unfold len. change 0 with (inject_Z 0). rewrite <- Zle_Qle. lia.
Qed.

Lemma len_pos m : m ≠ ∅ → 0 < len m.
Proof.
  intros H. apply map_size_non_empty_iff in H.
  unfold len. change 0 with (inject_Z 0). rewrite <- Zlt_Qlt. lia.
Qed.

(** The dict left by [for x in l: d[x] = f(x)]. *)
Lemma lookup_foldl_insert (f : string → V) (l : list string) m p :
  foldl (λ s x, <[x := f x]> s) m l !! p
  = if decide (p ∈ l) then Some (f p) else m !! p.
Proof.
  revert m. induction l as [|x l IH]; intros m.
  { done. }
  cbn [foldl]. rewrite IH.
  destruct (decide (p ∈ l)) as [Hl|Hl].
  - rewrite decide_True; [done|by right].
  - destruct (decide (p = x)) as [->|Hne].
    + rewrite decide_True by left. apply lookup_insert_eq.
    + rewrite decide_False by (rewrite elem_of_cons; tauto).
      by apply lookup_insert_ne.
Qed.

Lemma dom_foldl_insert (f : string → V) (l : list string) m :
  dom (foldl (λ s x, <[x := f x]> s) m l) = list_to_set l ∪ dom m.
Proof.
  apply set_eq. intros p.
  rewrite elem_of_dom, lookup_foldl_insert, elem_of_union,
    elem_of_list_to_set, elem_of_dom.
  destruct (decide (p ∈ l)) as [Hl|Hl].
  - split; [by left|by eauto].
  - split; [by right|]. by intros [?|?].
Qed.
End dicts.

Lemma keys_Permutation {V W : Type} (m1 : gmap string V) (m2 : gmap string W) :
  dom m1 = dom m2 → keys m1 ≡ₚ keys m2.
Proof.
  intros Hdom. apply NoDup_Permutation; [apply NoDup_keys..|].
  intros p. by rewrite !elem_of_keys, Hdom.
Qed.

Lemma list_to_set_keys {V : Type} (m : gmap string V) :
  list_to_set (keys m) = dom m.
Proof.
  apply set_eq. intros p. by rewrite elem_of_list_to_set, elem_of_keys.
Qed.

Lemma truediv_Ok (a b : Q) : ¬ b == 0 → truediv a b = Ok (a / b).
Proof.
  intros Hb. unfold truediv.
  destruct (Qeq_bool b 0) eqn:E; [|done]. by apply Qeq_bool_iff in E.
Qed.

Lemma truediv_zero (a b : Q) : b == 0 → truediv a b = Raise ZeroDivisionError.
Proof.
  intros Hb. unfold truediv. apply Qeq_bool_iff in Hb. by rewrite Hb.
Qed.

Lemma Qltb_lt (a b : Q) : Qltb a b = true ↔ a < b.
Proof.
  unfold Qltb. rewrite negb_true_iff, <- not_true_iff_false, Qle_bool_iff.
  split; [apply Qnot_le_lt|apply Qlt_not_le].
Qed.

Lemma truthy_true (s : gset string) : truthy s = true ↔ s ≠ ∅.
Proof.
  unfold truthy. rewrite negb_true_iff, Nat.eqb_neq.
  rewrite size_non_empty_iff. by unfold_leibniz.
Qed.

Lemma truthy_false (s : gset string) : truthy s = false ↔ s = ∅.
Proof.
  unfold truthy. rewrite negb_false_iff, Nat.eqb_eq, size_empty_iff.
  by unfold_leibniz.
Qed.

Lemma len_set_pos (s : gset string) : s ≠ ∅ → 0 < len_set s.
Proof.
  intros H. assert (size s ≠ 0%nat) by (rewrite size_non_empty_iff; by unfold_leibniz).
  unfold len_set. change 0 with (inject_Z 0). rewrite <- Zlt_Qlt. lia.
Qed.

(** The values of a dict add up to the sum of [f] over its keys when every
    value is [f] of its key. *)
Lemma Qsum_values (m : gmap string Q) (f : string → Q) :
  (∀ p v, m !! p = Some v → v == f p) →
  Qsum (values m) == sum_over (keys m) f.
Proof.
  intros H. unfold values, keys. apply Qsum_values_keys.
  apply Forall_forall. intros [p v] Hpv. apply elem_of_map_to_list in Hpv.
  simpl. by apply H.
Qed.

(** How many keys of [m] lie in [s]. *)
Lemma length_filter_keys {V : Type} (m : gmap string V) (s : gset string) :
  length (filter (.∈ s) (keys m)) = size (s ∩ dom m).
Proof.
  unfold size at 1, set_size. simpl. apply Permutation_length.
  apply NoDup_Permutation.
  - apply NoDup_filter, NoDup_keys.
  - apply NoDup_elements.
  - intros p. rewrite list_elem_of_filter, elem_of_keys, elem_of_elements.
    set_solver.
Qed.

(** * [transition_model] *)

Lemma lookup_nonempty {V : Type} (m : gmap string V) p v : m !! p = Some v → m ≠ ∅.
Proof. intros H ->. by rewrite lookup_empty in H. Qed.

Lemma len_nonzero {V : Type} (m : gmap string V) : m ≠ ∅ → ¬ len m == 0.
Proof. intros H%len_pos. lra. Qed.

Lemma len_set_nonzero (s : gset string) : s ≠ ∅ → ¬ len_set s == 0.
Proof. intros H%len_set_pos. lra. Qed.

Lemma transition_model_Ok (corpus : graph) (p : string) (links : gset string) (d : Q) :
  corpus !! p = Some links →
  transition_model corpus p d
  = Ok (foldl (λ s x, <[x := transition_value corpus links d x]> s) ∅ (keys corpus)).
Proof.
  intros Hp. unfold transition_model. rewrite (getitem_Some _ _ _ Hp). simpl.
  pose proof (len_nonzero _ (lookup_nonempty _ _ _ Hp)) as HN.
  unfold transition_value.
  destruct (truthy links) eqn:Ht.
  - apply truthy_true, len_set_nonzero in Ht.
    apply for_in_foldl. intros s x _.
    rewrite !truediv_Ok by done. simpl.
    destruct (bool_decide (x ∈ links)); [|done].
    rewrite (getitem_Some _ _ _ (lookup_insert_eq _ _ _)). simpl.
    by rewrite insert_insert_eq.
  - apply for_in_foldl. intros s x _. by rewrite truediv_Ok.
Qed.

Lemma transition_model_lookup (corpus : graph) (p : string) (links : gset string) (d : Q) :
  corpus !! p = Some links →
  ∃ m, transition_model corpus p d = Ok m ∧ dom m = dom corpus ∧
       ∀ q, q ∈ dom corpus → m !! q = Some (transition_value corpus links d q).
Proof.
  intros Hp. eexists. split; [by apply transition_model_Ok|]. split.
  - rewrite dom_foldl_insert, list_to_set_keys, dom_empty_L. apply (right_id_L ∅ (∪)).
  - intros q Hq. rewrite lookup_foldl_insert, decide_True; [done|].
    by apply elem_of_keys.
Qed.

(** ** The total probability *)

(** In exact arithmetic the probabilities add up to [1 - d] plus [d] times
    the share of the links that stay inside the graph. *)
Lemma transition_value_sum (corpus : graph) (links : gset string) (d : Q) :
  corpus ≠ ∅ →
  sum_over (keys corpus) (transition_value corpus links d)
  == if truthy links
     then (1 - d) + d * (inject_Z (Z.of_nat (size (links ∩ dom corpus))) / len_set links)
     else 1.
Proof.
  intros HN%len_nonzero. unfold transition_value.
  destruct (truthy links) eqn:Ht.
  - rewrite (sum_over_ext _ _ (λ q, (1 - d) / len corpus
      + (if bool_decide (q ∈ links) then d / len_set links else 0))); last first.
    { intros q _. destruct (bool_decide (q ∈ links)); ring. }
    rewrite sum_over_plus, sum_over_const, (sum_over_indicator (.∈ links)).
    rewrite length_keys, length_filter_keys. fold (len corpus).
    apply truthy_true, len_set_nonzero in Ht. by field.
  - rewrite sum_over_const, length_keys. fold (len corpus). by field.
Qed.

Lemma transition_value_sum_closed (corpus : graph) (links : gset string) (d : Q) :
  corpus ≠ ∅ → links ⊆ dom corpus →
  sum_over (keys corpus) (transition_value corpus links d) == 1.
Proof.
  intros HN Hsub. rewrite transition_value_sum by done.
  destruct (truthy links) eqn:Ht; [|done].
  assert (links ∩ dom corpus = links) as -> by by apply subseteq_intersection_1_L.
  fold (len_set links). apply truthy_true, len_set_nonzero in Ht. by field.
Qed.


(** * One round of [iterate_pagerank] *)

(** A loop that adds one term per element computes a sum. *)
Lemma for_in_sum {A : Type} (l : list A) (body : Q → A → result Q) (c : A → Q) (s : Q) :
  (∀ t x, x ∈ l → ∃ t', body t x = Ok t' ∧ t' == t + c x) →
  ∃ t, for_in l body s = Ok t ∧ t == s + sum_over l c.
Proof.
  revert s. induction l as [|x l IH]; intros s Hb; simpl.
  - exists s. split; [done|]. rewrite sum_over_nil. ring.
  - destruct (Hb s x) as (t' & -> & Ht'); [left|]. simpl.
    destruct (IH t') as (t & -> & Ht). { intros. apply Hb. by right. }
    exists t. split; [done|]. rewrite Ht, Ht', sum_over_cons. ring.
Qed.

Lemma rank_of_Some (pagerank : ranks) q v : pagerank !! q = Some v → rank_of pagerank q = v.
Proof. unfold rank_of. by intros ->. Qed.

Lemma links_of_Some (corpus : graph) q links :
  corpus !! q = Some links → links_of corpus q = links.
Proof. unfold links_of. by intros ->. Qed.

Section round.
Context (corpus : graph) (d : Q).
Implicit Types (pagerank new_rank : ranks) (p q : string).

Lemma new_rank_of_spec pagerank p :
  corpus ≠ ∅ → dom pagerank = dom corpus →
  ∃ v, new_rank_of corpus d (len corpus) pagerank p = Ok v ∧
       v == spec_new_rank corpus d (rank_of pagerank) p.
Proof.
  intros HN%len_nonzero Hdom. unfold new_rank_of.
  match goal with |- context [for_in ?l ?b ?s] =>
    destruct (for_in_sum l b (contribution corpus (rank_of pagerank) p) s)
      as (t & -> & Ht)
  end; last first.
  { simpl. rewrite truediv_Ok by done. simpl. eexists. split; [done|].
    unfold spec_new_rank. rewrite Ht. ring. }
  intros t q Hq. apply elem_of_keys in Hq.
  assert (is_Some (corpus !! q)) as [links Hlinks] by by apply elem_of_dom.
  assert (is_Some (pagerank !! q)) as [v Hv] by (apply elem_of_dom; by rewrite Hdom).
  rewrite (getitem_Some _ _ _ Hlinks). simpl.
  unfold contribution.
  rewrite (links_of_Some _ _ _ Hlinks), (rank_of_Some _ _ _ Hv).
  destruct (truthy links) eqn:Ht; simpl.
  - apply truthy_true in Ht. rewrite decide_False by done.
    destruct (decide (p ∈ links)) as [Hin|Hin].
    + rewrite bool_decide_true by done.
      rewrite (getitem_Some _ _ _ Hv). simpl.
      rewrite truediv_Ok by by apply len_set_nonzero. simpl. by eexists.
    + rewrite bool_decide_false by done. eexists. split; [done|]. ring.
  - apply truthy_false in Ht. rewrite decide_True by done.
    rewrite (getitem_Some _ _ _ Hv). simpl.
    rewrite truediv_Ok by done. simpl. by eexists.
Qed.

Lemma compute_round_spec pagerank :
  dom pagerank = dom corpus →
  ∃ new_rank, compute_round corpus d (len corpus) pagerank = Ok new_rank ∧
    dom new_rank = dom corpus ∧
    ∀ p, p ∈ dom corpus →
      rank_of new_rank p == spec_new_rank corpus d (rank_of pagerank) p.
Proof.
  intros Hdom. unfold compute_round.
  set (f := λ p, match new_rank_of corpus d (len corpus) pagerank p with
                 | Ok v => v | Raise _ => 0 end).
  assert (∀ p, p ∈ dom corpus →
    new_rank_of corpus d (len corpus) pagerank p = Ok (f p) ∧
    f p == spec_new_rank corpus d (rank_of pagerank) p) as Hf.
  { intros p Hp. unfold f.
    destruct (new_rank_of_spec pagerank p) as (v & -> & Hv); [|done..].
    intros ->. by rewrite dom_empty_L in Hp. }
  exists (foldl (λ s x, <[x := f x]> s) ∅ (keys corpus)). split; [|split].
  - apply for_in_foldl. intros s x Hx%elem_of_keys.
    destruct (Hf x Hx) as [-> _]. done.
  - rewrite dom_foldl_insert, list_to_set_keys, dom_empty_L.
    apply (right_id_L ∅ (∪)).
  - intros p Hp. unfold rank_of.
    rewrite lookup_foldl_insert, decide_True by by apply elem_of_keys.
    simpl. by apply Hf.
Qed.

Lemma converged_spec new_rank pagerank :
  dom new_rank = dom pagerank →
  ∃ b, converged new_rank pagerank = Ok b ∧
       (b = true ↔ all_settled new_rank pagerank).
Proof.
  intros Hdom. unfold converged.
  set (t := λ p, Qltb (Qabs (rank_of new_rank p - rank_of pagerank p))
                      convergence_threshold).
  exists (forallb t (keys pagerank)). split.
  - apply all_in_Ok. intros p Hp%elem_of_keys.
    assert (is_Some (pagerank !! p)) as [v Hv] by by apply elem_of_dom.
    assert (is_Some (new_rank !! p)) as [w Hw] by (apply elem_of_dom; by rewrite Hdom).
    rewrite (getitem_Some _ _ _ Hv), (getitem_Some _ _ _ Hw). simpl.
    unfold t. by rewrite (rank_of_Some _ _ _ Hv), (rank_of_Some _ _ _ Hw).
  - rewrite forallb_forall. unfold all_settled. split.
    + intros H p Hp. apply Qltb_lt. apply H, list_elem_of_In. by apply elem_of_keys.
    + intros H p Hp%list_elem_of_In%elem_of_keys. apply Qltb_lt. by apply H.
Qed.

(** The body of the loop: one round, then stop or adopt. *)
Lemma loop_body_spec pagerank :
  dom pagerank = dom corpus →
  ∃ new_rank, compute_round corpus d (len corpus) pagerank = Ok new_rank ∧
    dom new_rank = dom corpus ∧
    (all_settled new_rank pagerank →
       loop_body corpus d (len corpus) pagerank = Ok (Break pagerank)) ∧
    (¬ all_settled new_rank pagerank →
       loop_body corpus d (len corpus) pagerank = Ok (Continue new_rank)).
Proof.
  intros Hdom.
  destruct (compute_round_spec pagerank Hdom) as (new_rank & Hround & Hnew & _).
  exists new_rank. split; [done|]. split; [done|].
  destruct (converged_spec new_rank pagerank) as (b & Hb & Hiff); [congruence|].
  unfold loop_body. rewrite Hround. simpl. rewrite Hb. simpl.
  split; intros H.
  - apply Hiff in H. by subst b.
  - destruct b; [|done]. destruct H. by apply Hiff.
Qed.
End round.

(** * Each round is a contraction *)

Lemma len_set_nonneg (s : gset string) : 0 <= len_set s.
Proof. unfold len_set. change 0 with (inject_Z 0). rewrite <- Zle_Qle. lia. Qed.

Lemma Qabs_scale_le (w a : Q) : 0 <= w → Qabs (w * a) == w * Qabs a.
Proof. intros Hw. rewrite Qabs_Qmult, (Qabs_pos w); [ring|done]. Qed.

Lemma Qmult_le_l_nonneg (c a b : Q) : 0 <= c → a <= b → c * a <= c * b.
Proof. intros. nra. Qed.

Section contraction.
Context (corpus : graph) (d : Q).
Implicit Types (PR : string → Q) (p q : string).

Lemma contribution_weight PR p q :
  contribution corpus PR p q == weight corpus p q * PR q.
Proof.
  unfold contribution, weight, Qdiv.
  destruct (decide (links_of corpus q = ∅)); [ring|].
  destruct (decide (p ∈ links_of corpus q)); ring.
Qed.

Lemma weight_nonneg p q : 0 <= weight corpus p q.
Proof.
  unfold weight.
  destruct (decide (links_of corpus q = ∅)).
  { apply Qinv_le_0_compat, len_nonneg. }
  destruct (decide (p ∈ links_of corpus q)); [|lra].
  apply Qinv_le_0_compat, len_set_nonneg.
Qed.

(** A page hands out at most all of its rank. *)
Lemma weight_column q :
  corpus ≠ ∅ → sum_over (keys corpus) (λ p, weight corpus p q) <= 1.
Proof.
  intros HN. unfold weight.
  destruct (decide (links_of corpus q = ∅)) as [Hdead|Hlinks].
  - rewrite sum_over_const, length_keys. fold (len corpus).
    apply len_nonzero in HN.
    assert (len corpus * / len corpus == 1) as -> by (by field). lra.
  - set (links := links_of corpus q) in *.
    rewrite (sum_over_ext _ _
      (λ p, if bool_decide (p ∈ links) then / len_set links else 0)); last first.
    { intros p _. by destruct (decide (p ∈ links));
        [rewrite bool_decide_true|rewrite bool_decide_false]. }
    rewrite (sum_over_indicator (.∈ links)), length_filter_keys.
    pose proof (len_set_pos _ Hlinks) as HL.
    apply Qle_shift_div_r; [done|]. rewrite Qmult_1_l.
    unfold len_set. rewrite <- Zle_Qle. apply inj_le, subseteq_size.
    apply intersection_subseteq_l.
Qed.

(** With every link inside the graph, it hands out exactly all of it. *)
Lemma weight_column_closed q :
  q ∈ dom corpus → links_of corpus q ⊆ dom corpus →
  sum_over (keys corpus) (λ p, weight corpus p q) == 1.
Proof.
  intros Hq Hsub. unfold weight.
  assert (corpus ≠ ∅) as HN%len_nonzero.
  { intros ->. by rewrite dom_empty_L in Hq. }
  destruct (decide (links_of corpus q = ∅)) as [Hdead|Hlinks].
  - rewrite sum_over_const, length_keys. fold (len corpus). by field.
  - set (links := links_of corpus q) in *.
    rewrite (sum_over_ext _ _
      (λ p, if bool_decide (p ∈ links) then / len_set links else 0)); last first.
    { intros p _. by destruct (decide (p ∈ links));
        [rewrite bool_decide_true|rewrite bool_decide_false]. }
    rewrite (sum_over_indicator (.∈ links)), length_filter_keys.
    assert (links ∩ dom corpus = links) as -> by by apply subseteq_intersection_1_L.
    fold (len_set links). field. by apply len_set_nonzero.
Qed.

Lemma spec_new_rank_weight PR p :
  spec_new_rank corpus d PR p
  == (1 - d) / len corpus + d * sum_over (keys corpus) (λ q, weight corpus p q * PR q).
Proof.
  unfold spec_new_rank.
  rewrite (sum_over_ext _ _ (λ q, weight corpus p q * PR q)); [done|].
  intros q _. apply contribution_weight.
Qed.

Lemma spec_new_rank_diff PR1 PR2 p :
  spec_new_rank corpus d PR2 p - spec_new_rank corpus d PR1 p
  == d * sum_over (keys corpus) (λ q, weight corpus p q * (PR2 q - PR1 q)).
Proof.
  rewrite !spec_new_rank_weight.
  rewrite (sum_over_ext _ (λ q, weight corpus p q * (PR2 q - PR1 q))
    (λ q, weight corpus p q * PR2 q - weight corpus p q * PR1 q)); last first.
  { intros q _. ring. }
  rewrite sum_over_minus. ring.
Qed.

(** The total change shrinks by the factor [d] from one round to the next. *)
Lemma spec_new_rank_contracts PR1 PR2 :
  corpus ≠ ∅ → 0 <= d →
  sum_over (keys corpus)
    (λ p, Qabs (spec_new_rank corpus d PR2 p - spec_new_rank corpus d PR1 p))
  <= d * sum_over (keys corpus) (λ q, Qabs (PR2 q - PR1 q)).
Proof.
  intros HN Hd.
  set (D := λ q, Qabs (PR2 q - PR1 q)).
  apply Qle_trans with
    (sum_over (keys corpus)
       (λ p, d * sum_over (keys corpus) (λ q, weight corpus p q * D q))).
  { apply sum_over_le. intros p _.
    rewrite spec_new_rank_diff, Qabs_scale_le by done.
    apply Qmult_le_l_nonneg; [done|].
    eapply Qle_trans; [apply sum_over_abs|].
    apply sum_over_le. intros q _. unfold D.
    rewrite Qabs_scale_le by apply weight_nonneg. lra. }
  rewrite sum_over_scal. apply Qmult_le_l_nonneg; [done|].
  rewrite sum_over_swap.
  apply sum_over_le. intros q _.
  rewrite sum_over_scal_r.
  pose proof (weight_column q HN) as Hcol.
  assert (0 <= D q) by apply Qabs_nonneg.
  nra.
Qed.
End contraction.

(** * The result of [iterate_pagerank] *)

Lemma sum_over_pos {A : Type} (l : list A) (f : A → Q) :
  l ≠ [] → (∀ x, x ∈ l → 0 < f x) → 0 < sum_over l f.
Proof.
  destruct l as [|x l]; [done|]. intros _ H.
  rewrite sum_over_cons.
  assert (0 < f x) by (apply H; left).
  assert (0 <= sum_over l f).
  { apply sum_over_nonneg. intros y Hy. apply Qlt_le_weak, H. by right. }
  lra.
Qed.

Lemma keys_nonempty {V : Type} (m : gmap string V) : m ≠ ∅ → keys m ≠ [].
Proof.
  intros Hm Hk. apply Hm, map_size_empty_iff.
  by rewrite <- length_keys, Hk.
Qed.

(** For every bound there is a multiple of a positive step beyond it. *)
Lemma Q_archimedean (x c : Q) : 0 < c → ∃ K : nat, x < inject_Z (Z.of_nat K) * c.
Proof.
  intros Hc. exists (Z.to_nat (Qfloor (x / c) + 1)).
  pose proof (Qlt_floor (x / c)) as H.
  assert (x == x / c * c) as Hx by (field; lra).
  assert (inject_Z (Qfloor (x / c) + 1)
          <= inject_Z (Z.of_nat (Z.to_nat (Qfloor (x / c) + 1)))) as HK.
  { rewrite <- Zle_Qle. lia. }
  revert H Hx HK.
  generalize (x / c), (inject_Z (Z.of_nat (Z.to_nat (Qfloor (x / c) + 1)))).
  intros q K. generalize (inject_Z (Qfloor q + 1)). intros. nra.
Qed.

(** ** The initial ranks and the final division *)

Lemma initial_rank_spec (corpus : graph) :
  ∃ x0, initial_rank corpus (len corpus) = Ok x0 ∧ dom x0 = dom corpus ∧
        ∀ p, p ∈ dom corpus → x0 !! p = Some (1 / len corpus).
Proof.
  exists (foldl (λ s x, <[x := 1 / len corpus]> s) ∅ (keys corpus)).
  split; [|split].
  - apply for_in_foldl. intros s x Hx%elem_of_keys.
    rewrite truediv_Ok; [done|]. apply len_nonzero.
    intros ->. by rewrite dom_empty_L in Hx.
  - rewrite (dom_foldl_insert (λ _, 1 / len corpus)), list_to_set_keys, dom_empty_L.
    apply (right_id_L ∅ (∪)).
  - intros p Hp.
    rewrite (lookup_foldl_insert (λ _, 1 / len corpus)), decide_True; [done|].
    by apply elem_of_keys.
Qed.

Lemma lookup_foldl_alter (f : Q → Q) (l : list string) (m : ranks) p :
  NoDup l →
  foldl (λ s x, match s !! x with Some v => <[x := f v]> s | None => s end) m l !! p
  = if decide (p ∈ l) then f <$> m !! p else m !! p.
Proof.
  intros Hl. revert m. induction Hl as [|x l Hx _ IH]; intros m; [done|].
  cbn [foldl]. rewrite IH.
  assert ((match m !! x with Some v => <[x := f v]> m | None => m end) !! p
          = if decide (p = x) then f <$> m !! p else m !! p) as Hstep.
  { destruct (decide (p = x)) as [->|Hne].
    - destruct (m !! x) eqn:E; [by rewrite lookup_insert_eq|by rewrite E].
    - destruct (m !! x); [by rewrite lookup_insert_ne|done]. }
  rewrite Hstep.
  destruct (decide (p = x)) as [->|Hne].
  - rewrite (decide_False (P := x ∈ l)) by done.
    by rewrite (decide_True (P := x ∈ x :: l)) by left.
  - destruct (decide (p ∈ l)) as [Hin|Hin].
    + by rewrite (decide_True (P := p ∈ x :: l)) by by right.
    + rewrite (decide_False (P := p ∈ x :: l)); [done|].
      rewrite elem_of_cons. tauto.
Qed.

Lemma normalize_spec (pagerank : ranks) :
  ¬ Qsum (values pagerank) == 0 →
  normalize pagerank = Ok ((λ v, v / Qsum (values pagerank)) <$> pagerank).
Proof.
  intros Hsum. unfold normalize.
  set (t := Qsum (values pagerank)) in *.
  set (g := λ (s : ranks) x,
         match s !! x with Some v => <[x := v / t]> s | None => s end).
  destruct (for_in_foldl_inv (λ s, dom s = dom pagerank) g (keys pagerank)
    (λ pagerank page, v ← getitem pagerank page; v' ← truediv v t;
                      Ok (<[page := v']> pagerank)) pagerank) as [-> _].
  - done.
  - intros s x Hs Hx%elem_of_keys.
    assert (is_Some (s !! x)) as [v Hv] by (apply elem_of_dom; by rewrite Hs).
    unfold g. rewrite (getitem_Some _ _ _ Hv), Hv. simpl.
    rewrite truediv_Ok by done. simpl. split; [done|].
    rewrite dom_insert_L, subseteq_union_1_L; [done|].
    apply singleton_subseteq_l, elem_of_dom. eauto.
  - f_equal. apply map_eq. intros p. unfold g.
    rewrite (lookup_foldl_alter (λ v, v / t)) by apply NoDup_keys.
    rewrite lookup_fmap. destruct (decide (p ∈ keys pagerank)) as [|Hp]; [done|].
    rewrite elem_of_keys in Hp. apply not_elem_of_dom in Hp. by rewrite Hp.
Qed.

Lemma Qsum_values_rank_of (x : ranks) :
  Qsum (values x) == sum_over (keys x) (rank_of x).
Proof.
  apply Qsum_values. intros p v Hp. by rewrite (rank_of_Some _ _ _ Hp).
Qed.

(** After the division the ranks add up to one. *)
Lemma Qsum_values_normalized (x : ranks) (t : Q) :
  t == Qsum (values x) → ¬ t == 0 →
  Qsum (values ((λ v, v / t) <$> x)) == 1.
Proof.
  intros Ht Hne.
  rewrite (Qsum_values _ (λ p, rank_of x p * / t)); last first.
  { intros p v. rewrite lookup_fmap. destruct (x !! p) as [w|] eqn:E; [|done].
    intros [= <-]. by rewrite (rank_of_Some _ _ _ E). }
  rewrite sum_over_scal_r.
  rewrite (sum_over_Permutation _ (keys x)); last first.
  { apply keys_Permutation. by rewrite dom_fmap_L. }
  rewrite <- Qsum_values_rank_of, <- Ht. by field.
Qed.

(** ** Rounds keep the ranks positive and bring them closer *)

Section settle.
Context (corpus : graph) (d : Q).
Hypothesis corpus_nonempty : corpus ≠ ∅.
Hypothesis d_nonneg : 0 <= d.
Hypothesis d_below_1 : d < 1.
Implicit Types (x y : ranks).

Lemma initial_rank_positive x0 :
  initial_rank corpus (len corpus) = Ok x0 → positive_ranks corpus x0.
Proof.
  destruct (initial_rank_spec corpus) as (x & -> & Hdom & Hx).
  intros [= <-]. split; [done|]. intros p Hp.
  rewrite (rank_of_Some _ _ _ (Hx p Hp)).
  apply Qlt_shift_div_l; [by apply len_pos|lra].
Qed.

Lemma spec_new_rank_positive PR p :
  (∀ q, q ∈ dom corpus → 0 <= PR q) → 0 < spec_new_rank corpus d PR p.
Proof.
  intros HPR. rewrite spec_new_rank_weight.
  assert (0 < (1 - d) / len corpus).
  { apply Qlt_shift_div_l; [by apply len_pos|lra]. }
  assert (0 <= sum_over (keys corpus) (λ q, weight corpus p q * PR q)).
  { apply sum_over_nonneg. intros q Hq%elem_of_keys.
    apply Qmult_le_0_compat; [apply weight_nonneg|by apply HPR]. }
  nra.
Qed.

Lemma compute_round_positive x x' :
  positive_ranks corpus x →
  compute_round corpus d (len corpus) x = Ok x' →
  positive_ranks corpus x'.
Proof.
  intros [Hdom Hpos] Hround.
  destruct (compute_round_spec corpus d x Hdom) as (y & Hy & Hdomy & Hspec).
  rewrite Hround in Hy. injection Hy as <-.
  split; [done|]. intros p Hp. rewrite (Hspec p Hp).
  apply spec_new_rank_positive. intros q Hq. by apply Qlt_le_weak, Hpos.
Qed.

Lemma compute_round_contracts x x' x'' :
  dom x = dom corpus →
  compute_round corpus d (len corpus) x = Ok x' →
  compute_round corpus d (len corpus) x' = Ok x'' →
  distance corpus x' x'' <= d * distance corpus x x'.
Proof.
  intros Hdom Hx' Hx''.
  destruct (compute_round_spec corpus d x Hdom) as (y & Hy & Hdomy & Hspec).
  rewrite Hx' in Hy. injection Hy as <-.
  destruct (compute_round_spec corpus d x' Hdomy) as (y & Hy & _ & Hspec').
  rewrite Hx'' in Hy. injection Hy as <-.
  unfold distance.
  rewrite (sum_over_ext _ _ (λ p,
    Qabs (spec_new_rank corpus d (rank_of x') p
          - spec_new_rank corpus d (rank_of x) p))); last first.
  { intros p Hp%elem_of_keys. by rewrite (Hspec p Hp), (Hspec' p Hp). }
  by apply spec_new_rank_contracts.
Qed.

Lemma small_distance_settled x x' :
  dom x = dom corpus →
  distance corpus x x' < convergence_threshold → all_settled x' x.
Proof.
  intros Hdom Hdist p Hp. eapply Qle_lt_trans; [|exact Hdist].
  unfold distance.
  apply (sum_over_elem_le (keys corpus)
           (λ p, Qabs (rank_of x' p - rank_of x p))).
  - intros q _. apply Qabs_nonneg.
  - apply elem_of_keys. by rewrite <- Hdom.
Qed.

(** The loop stops once the total change has fallen under the threshold,
    and each adopted round takes it a fixed step closer. *)
Lemma while_true_settles (K : nat) x x' :
  positive_ranks corpus x →
  compute_round corpus d (len corpus) x = Ok x' →
  distance corpus x x'
    < convergence_threshold
      + inject_Z (Z.of_nat K) * ((1 - d) * convergence_threshold) →
  ∃ fuel r, while_true fuel corpus d (len corpus) x = Some (Ok r) ∧
            positive_ranks corpus r.
Proof.
  revert x x'. induction K as [|K IH]; intros x x' Hx Hround Hdist.
  - exists 1%nat, x. split; [|done]. simpl.
    destruct (loop_body_spec corpus d x) as (y & Hy & _ & Hstop & _); [apply Hx|].
    rewrite Hround in Hy. injection Hy as <-.
    rewrite Hstop; [done|].
    apply small_distance_settled; [apply Hx|].
    change (inject_Z (Z.of_nat 0)) with 0 in Hdist. lra.
  - destruct (loop_body_spec corpus d x) as (y & Hy & Hdomy & Hstop & Hgo);
      [apply Hx|].
    rewrite Hround in Hy. injection Hy as <-.
    destruct (converged_spec x' x) as (b & _ & Hb); [by rewrite Hdomy; symmetry; apply Hx|].
    destruct b.
    { exists 1%nat, x. split; [|done]. simpl. rewrite Hstop; [done|]. by apply Hb. }
    assert (¬ all_settled x' x) as Hns by (rewrite <- Hb; done).
    destruct (compute_round_spec corpus d x' Hdomy) as (x'' & Hx'' & _ & _).
    destruct (IH x' x'') as (fuel & r & Hrun & Hr).
    + by eapply compute_round_positive.
    + done.
    + pose proof (compute_round_contracts x x' x'' (proj1 Hx) Hround Hx'') as Hc.
      assert (convergence_threshold <= distance corpus x x') as Hge.
      { apply Qnot_lt_le. intros Hlt. apply Hns.
        apply small_distance_settled; [apply Hx|done]. }
      rewrite Nat2Z.inj_succ, <- Z.add_1_r, inject_Z_plus in Hdist.
      change (inject_Z 1) with 1 in Hdist.
      revert Hdist Hc Hge.
      generalize (distance corpus x x'), (distance corpus x' x''),
        (inject_Z (Z.of_nat K)). unfold convergence_threshold.
      intros. nra.
    + exists (S fuel), r. split; [|done]. simpl. by rewrite Hgo.
Qed.

Lemma positive_ranks_sum x : positive_ranks corpus x → 0 < Qsum (values x).
Proof.
  intros [Hdom Hpos]. rewrite Qsum_values_rank_of.
  apply sum_over_pos.
  - apply keys_nonempty. intros ->. apply corpus_nonempty.
    apply dom_empty_iff_L. by rewrite <- Hdom, dom_empty_L.
  - intros p Hp%elem_of_keys. apply Hpos. by rewrite <- Hdom.
Qed.

(** On a non-empty graph with damping in [[0,1)] the loop ends, and the
    result is a mapping over the pages of the graph that adds up to 1. *)
Lemma iterate_pagerank_returns :
  ∃ fuel r, iterate_pagerank fuel corpus d = Some (Ok r) ∧
            dom r = dom corpus ∧ Qsum (values r) == 1.
Proof.
  destruct (initial_rank_spec corpus) as (x0 & Hx0 & Hdom0 & _).
  pose proof (initial_rank_positive x0 Hx0) as Hpos0.
  destruct (compute_round_spec corpus d x0 Hdom0) as (x1 & Hx1 & _ & _).
  destruct (Q_archimedean (distance corpus x0 x1 - convergence_threshold)
              ((1 - d) * convergence_threshold)) as [K HK].
  { unfold convergence_threshold. lra. }
  destruct (while_true_settles K x0 x1 Hpos0 Hx1) as (fuel & x & Hrun & Hx); [lra|].
  pose proof (positive_ranks_sum x Hx) as Hsum.
  exists fuel, ((λ v, v / Qsum (values x)) <$> x).
  unfold iterate_pagerank. rewrite Hx0, Hrun.
  rewrite normalize_spec by lra. split; [done|]. split.
  - rewrite dom_fmap_L. apply Hx.
  - apply Qsum_values_normalized; [done|lra].
Qed.
End settle.

(** * The shape of the loop *)

Section loop.
Context (corpus : graph) (d : Q).
Implicit Types (x r : ranks).

Lemma loop_body_Break x r :
  loop_body corpus d (len corpus) x = Ok (Break r) →
  r = x ∧ ∃ new_rank, compute_round corpus d (len corpus) x = Ok new_rank ∧
                      converged new_rank x = Ok true.
Proof.
  unfold loop_body.
  destruct (compute_round corpus d (len corpus) x) as [new_rank|]; [|done]. simpl.
  destruct (converged new_rank x) as [[]|] eqn:E; simpl; [|done..].
  intros [= <-]. split; [done|]. by exists new_rank.
Qed.

Lemma loop_body_Continue x r :
  loop_body corpus d (len corpus) x = Ok (Continue r) →
  compute_round corpus d (len corpus) x = Ok r ∧ converged r x = Ok false.
Proof.
  unfold loop_body.
  destruct (compute_round corpus d (len corpus) x) as [new_rank|]; [|done]. simpl.
  destruct (converged new_rank x) as [[]|] eqn:E; simpl; [done| |done].
  by intros [= <-].
Qed.

(** More fuel does not change an outcome. *)
Lemma while_true_mono fuel fuel' x o :
  while_true fuel corpus d (len corpus) x = Some o → (fuel ≤ fuel')%nat →
  while_true fuel' corpus d (len corpus) x = Some o.
Proof.
  revert fuel' x. induction fuel as [|fuel IH]; intros fuel' x; [done|].
  intros Hrun Hle. destruct fuel' as [|fuel']; [lia|].
  simpl in *.
  destruct (loop_body corpus d (len corpus) x) as [[r|r]|]; [done| |done].
  apply IH; [done|lia].
Qed.

Lemma iterate_pagerank_mono fuel fuel' o :
  iterate_pagerank fuel corpus d = Some o → (fuel ≤ fuel')%nat →
  iterate_pagerank fuel' corpus d = Some o.
Proof.
  unfold iterate_pagerank.
  destruct (initial_rank corpus (len corpus)) as [x0|]; [|done].
  destruct (while_true fuel corpus d (len corpus) x0) as [o'|] eqn:E; [|done].
  intros Ho Hle. by rewrite (while_true_mono fuel fuel' x0 o' E Hle).
Qed.

Lemma adopted_dom k x : adopted corpus d k = Ok x → dom x = dom corpus.
Proof.
  revert x. induction k as [|k IH]; intros x; simpl.
  - destruct (initial_rank_spec corpus) as (x0 & -> & Hdom & _). by intros [= <-].
  - destruct (adopted corpus d k) as [y|]; [|done]. simpl. intros Hx.
    destruct (compute_round_spec corpus d y (IH y eq_refl)) as (x' & Hx' & Hdom & _).
    rewrite Hx in Hx'. by injection Hx' as <-.
Qed.

(** The loop returns the mapping it last adopted: the one whose next
    round passed the convergence test. *)
Lemma while_true_adopted fuel k x r :
  adopted corpus d k = Ok x →
  while_true fuel corpus d (len corpus) x = Some (Ok r) →
  ∃ j new_rank, adopted corpus d (k + j) = Ok r ∧
    compute_round corpus d (len corpus) r = Ok new_rank ∧
    converged new_rank r = Ok true.
Proof.
  revert k x. induction fuel as [|fuel IH]; intros k x Hk; [done|]. simpl.
  destruct (loop_body corpus d (len corpus) x) as [[y|y]|] eqn:E; [| |done].
  - intros [= <-]. apply loop_body_Break in E as (-> & new_rank & Hnew & Hconv).
    exists 0%nat, new_rank. by rewrite Nat.add_0_r.
  - intros Hrun. apply loop_body_Continue in E as [Hy _].
    destruct (IH (S k) y) as (j & new_rank & Hj & Hnew & Hconv); [|done|].
    { simpl. by rewrite Hk. }
    exists (S j), new_rank. by rewrite <- Nat.add_succ_comm.
Qed.
End loop.

Lemma normalize_Ok_inv (x r : ranks) :
  normalize x = Ok r → r = (λ v, v / Qsum (values x)) <$> x.
Proof.
  destruct (Qeq_bool (Qsum (values x)) 0) eqn:E.
  - apply Qeq_bool_iff in E. unfold normalize.
    destruct (keys x) as [|p l] eqn:Hk.
    + intros [= <-].
      assert (x = ∅) as ->.
      { apply map_size_empty_iff. by rewrite <- length_keys, Hk. }
      by rewrite fmap_empty.
    + assert (p ∈ dom x) as Hp by (apply elem_of_keys; rewrite Hk; left).
      apply elem_of_dom in Hp as [v Hv]. cbn [for_in].
      rewrite (getitem_Some _ _ _ Hv). simpl.
      by rewrite truediv_zero.
  - apply Qeq_bool_neq in E. rewrite normalize_spec by done. by intros [= <-].
Qed.


Lemma iterate_pagerank_empty (d : Q) (fuel : nat) :
  iterate_pagerank (S fuel) ∅ d = Some (Ok ∅).
Proof. reflexivity. Qed.

(** The mapping the loop returns is the first adopted one whose next round
    passes the convergence test: the round after every earlier one failed
    it. *)
Lemma while_true_first_settled (corpus : graph) (d : Q) (fuel k : nat) (x r : ranks) :
  adopted corpus d k = Ok x →
  while_true fuel corpus d (len corpus) x = Some (Ok r) →
  ∃ j new_rank, (j < fuel)%nat ∧
    adopted corpus d (k + j) = Ok r ∧
    compute_round corpus d (len corpus) r = Ok new_rank ∧
    converged new_rank r = Ok true ∧
    ∀ i, (i < j)%nat → ∃ y y',
      adopted corpus d (k + i) = Ok y ∧
      compute_round corpus d (len corpus) y = Ok y' ∧
      converged y' y = Ok false.
Proof.
  revert k x. induction fuel as [|fuel IH]; intros k x Hk; [done|]. simpl.
  destruct (loop_body corpus d (len corpus) x) as [[y|y]|] eqn:E; [| |done].
  - intros [= <-]. apply loop_body_Break in E as (-> & new_rank & Hnew & Hconv).
    exists 0%nat, new_rank. rewrite Nat.add_0_r.
    split; [lia|]. split; [done|]. split; [done|]. split; [done|]. intros; lia.
  - intros Hrun. apply loop_body_Continue in E as [Hy Hfalse].
    destruct (IH (S k) y) as (j & new_rank & Hlt & Hj & Hnew & Hconv & Hearlier);
      [|done|].
    { simpl. by rewrite Hk. }
    exists (S j), new_rank. rewrite <- Nat.add_succ_comm.
    split; [lia|]. split; [done|]. split; [done|]. split; [done|].
    intros [|i] Hi.
    + exists x, y. by rewrite Nat.add_0_r.
    + destruct (Hearlier i) as (z & z' & Hz & Hzz' & Hzf); [lia|].
      exists z, z'. by rewrite <- Nat.add_succ_comm.
Qed.

(** * A graph on which the loop never ends *)









(** * The random source *)

Lemma accumulate_from_length (acc : Q) (ws : list Q) :
  length (accumulate_from acc ws) = length ws.
Proof. revert acc. induction ws as [|w ws IH]; intros acc; simpl; auto. Qed.

Lemma accumulate_length (ws : list Q) : length (accumulate ws) = length ws.
Proof. destruct ws; simpl; [done|]. by rewrite accumulate_from_length. Qed.

Lemma accumulate_from_last (acc : Q) (ws : list Q) :
  ∃ total, last (acc :: accumulate_from acc ws) = Some total ∧
           total == acc + Qsum ws.
Proof.
  revert acc. induction ws as [|w ws IH]; intros acc.
  - exists acc. split; [done|]. rewrite Qsum_nil. ring.
  - destruct (IH (acc + w)) as (t & Ht & Hsum).
    exists t. split.
    + cbn [accumulate_from]. by rewrite last_cons, Ht.
    + rewrite Hsum, Qsum_cons. ring.
Qed.

(** The last running total is the total weight. *)
Lemma accumulate_last (ws : list Q) :
  ws ≠ [] → ∃ total, last (accumulate ws) = Some total ∧ total == Qsum ws.
Proof.
  destruct ws as [|w ws]; [done|]. intros _.
  destruct (accumulate_from_last w ws) as (t & Ht & Hsum).
  exists t. split; [done|]. by rewrite Hsum, Qsum_cons.
Qed.

(** The search stays inside its bounds whatever it is asked to find. *)
Lemma bisect_right_bounds (steps : nat) (a : list Q) (x : Q) (lo hi : nat) :
  (lo ≤ hi)%nat → (hi ≤ length a)%nat →
  ∃ i, bisect_right steps a x lo hi = Ok i ∧ (lo ≤ i ≤ hi)%nat.
Proof.
  revert lo hi. induction steps as [|steps IH]; intros lo hi Hlo Hhi;
    cbn [bisect_right].
  { exists lo. split; [done|lia]. }
  destruct (lo <? hi)%nat eqn:E; [|exists lo; split; [done|lia]].
  apply Nat.ltb_lt in E.
  assert (lo ≤ (lo + hi) / 2 ∧ (lo + hi) / 2 < hi)%nat as [Hm1 Hm2].
  { split.
    - apply Nat.div_le_lower_bound; lia.
    - apply Nat.Div0.div_lt_upper_bound; lia. }
  destruct (lookup_lt_is_Some_2 a ((lo + hi) / 2)) as [am ->]; [lia|].
  destruct (Qltb x am).
  - destruct (IH lo ((lo + hi) / 2)%nat) as (i & -> & Hi); [lia..|].
    exists i. split; [done|lia].
  - destruct (IH ((lo + hi) / 2 + 1)%nat hi) as (i & -> & Hi); [lia..|].
    exists i. split; [done|lia].
Qed.

Lemma random_choices_Ok {A : Type} (population : list A) (weights : list Q) g :
  population ≠ [] → length weights = length population → 0 < Qsum weights →
  ∃ x, random_choices population weights g = Ok (x, λ i, g (S i)) ∧ x ∈ population.
Proof.
  intros Hne Hlen Hpos. unfold random_choices.
  rewrite accumulate_length, Hlen, Nat.eqb_refl. simpl.
  destruct (accumulate_last weights) as (total & -> & Htotal).
  { intros ->. destruct population; [done|discriminate]. }
  destruct (Qle_bool total 0) eqn:E.
  { apply Qle_bool_iff in E. lra. }
  destruct (bisect_right_bounds (length population - 1 - 0) (accumulate weights)
              (g O * total) 0 (length population - 1)) as (i & -> & Hi); [lia| |].
  { rewrite accumulate_length. lia. }
  simpl.
  assert (length population ≠ 0%nat) by by destruct population.
  destruct (lookup_lt_is_Some_2 population i) as [x Hx]; [lia|].
  rewrite Hx. exists x. split; [done|]. by eapply list_elem_of_lookup_2.
Qed.

Lemma random_choice_Ok {A : Type} (seq : list A) g :
  seq ≠ [] → 0 <= g O → g O < 1 →
  ∃ x, random_choice seq g = Ok (x, λ i, g (S i)) ∧ x ∈ seq.
Proof.
  intros Hne H0 H1. unfold random_choice.
  destruct seq as [|a seq']; [done|]. set (seq := a :: seq') in *.
  cbn [random].
  set (n := inject_Z (Z.of_nat (length seq))).
  assert (0 < n) as Hn.
  { unfold n. change 0 with (inject_Z 0). rewrite <- Zlt_Qlt. simpl. lia. }
  assert (Qfloor (g O * n) < Z.of_nat (length seq))%Z as Hlt.
  { rewrite Zlt_Qlt. eapply Qle_lt_trans; [apply Qfloor_le|].
    change (g O * n < n). clearbody n. nra. }
  assert (0 <= Qfloor (g O * n))%Z as Hge.
  { rewrite <- (Qfloor_Z 0). apply Qfloor_resp_le. change (0 <= g O * n). nra. }
  destruct (lookup_lt_is_Some_2 seq (Z.to_nat (Qfloor (g O * n)))) as [x Hx].
  { revert Hlt Hge. generalize (Qfloor (g O * n)), (length seq). intros. lia. }
  fold n. rewrite Hx. exists x. split; [done|]. by eapply list_elem_of_lookup_2.
Qed.

(** * [sample_pagerank] *)

(** Changing one term of a sum changes the sum by as much. *)
Lemma sum_over_update {A : Type} `{!EqDecision A} (l : list A) (f g : A → Q)
    (x : A) (c : Q) :
  NoDup l → x ∈ l →
  (∀ y, y ∈ l → y ≠ x → g y == f y) → g x == f x + c →
  sum_over l g == sum_over l f + c.
Proof.
  intros Hl. revert x. induction Hl as [|y l Hy _ IH]; intros x Hx Hother Hat.
  { by apply elem_of_nil in Hx. }
  rewrite !sum_over_cons.
  destruct (decide (y = x)) as [->|Hne].
  - rewrite Hat, (sum_over_ext l g f); [ring|].
    intros z Hz. apply Hother; [by right|]. by intros ->.
  - apply elem_of_cons in Hx as [->|Hx]; [done|].
    rewrite (IH x), (Hother y); [ring|by left|done|done| |done].
    intros z Hz. apply Hother. by right.
Qed.

Lemma lookup_foldl_insert_items {V W : Type} (f : V → W)
    (l : list (string * V)) (m : gmap string W) p :
  NoDup (l.*1) →
  foldl (λ acc kv, <[kv.1 := f kv.2]> acc) m l !! p
  = match (list_to_map l : gmap string V) !! p with
    | Some v => Some (f v)
    | None => m !! p
    end.
Proof.
  revert m. induction l as [|[k v] l IH]; intros m Hl; [done|].
  rewrite fmap_cons in Hl. apply NoDup_cons in Hl as [Hk Hl].
  cbn [foldl]. rewrite IH by done. rewrite list_to_map_cons. simpl.
  destruct (decide (p = k)) as [->|Hne].
  - rewrite (not_elem_of_list_to_map_1 _ _ Hk). by rewrite !lookup_insert_eq.
  - rewrite (lookup_insert_ne (list_to_map l)) by done.
    destruct (list_to_map l !! p); [done|]. by rewrite lookup_insert_ne.
Qed.

(** The dict comprehension of line 96. *)
Lemma final_division (page_counts : gmap string Z) (n : Z) :
  n ≠ 0%Z →
  for_in (items page_counts) (λ acc '(page, count),
      v ← truediv (inject_Z count) (inject_Z n);
      Ok (<[page := v]> acc)) (∅ : ranks)
  = Ok ((λ c, inject_Z c / inject_Z n) <$> page_counts).
Proof.
  intros Hn.
  rewrite (for_in_foldl
    (λ acc kv, <[kv.1 := inject_Z kv.2 / inject_Z n]> acc)).
  - f_equal. apply map_eq. intros p.
    rewrite (lookup_foldl_insert_items (λ c, inject_Z c / inject_Z n))
      by apply NoDup_fst_map_to_list.
    unfold items. rewrite list_to_map_to_list, lookup_fmap, lookup_empty.
    by destruct (page_counts !! p).
  - intros s [page count] _. rewrite truediv_Ok; [done|].
    change 0 with (inject_Z 0). rewrite inject_Z_injective. done.
Qed.

(** With a zero sample count the first division of line 96 fails. *)
Lemma final_division_zero (page_counts : gmap string Z) :
  page_counts ≠ ∅ →
  for_in (items page_counts) (λ acc '(page, count),
      v ← truediv (inject_Z count) (inject_Z 0);
      Ok (<[page := v]> acc)) (∅ : ranks)
  = Raise ZeroDivisionError.
Proof.
  intros Hne. unfold items.
  destruct (map_to_list page_counts) as [|[page count] l] eqn:E.
  { by apply map_to_list_empty_iff in E. }
  done.
Qed.

Lemma length_values_keys {V : Type} (m : gmap string V) :
  length (values m) = length (keys m).
Proof. unfold values, keys. by rewrite !length_fmap. Qed.

Lemma transition_model_total (corpus : graph) (p : string) (links : gset string)
    (d : Q) (m : ranks) :
  corpus !! p = Some links → transition_model corpus p d = Ok m →
  Qsum (values m) == sum_over (keys corpus) (transition_value corpus links d).
Proof.
  intros Hp Hm.
  destruct (transition_model_lookup corpus p links d Hp) as (m' & Hm' & Hdom & Hval).
  rewrite Hm in Hm'. injection Hm' as <-.
  rewrite (Qsum_values m (transition_value corpus links d)).
  - apply sum_over_Permutation. by apply keys_Permutation.
  - intros q v Hq.
    assert (q ∈ dom corpus) as Hin by (rewrite <- Hdom; apply elem_of_dom; eauto).
    rewrite (Hval q Hin) in Hq. by injection Hq as <-.
Qed.

Section sample.
Context (corpus : graph) (d : Q).
Hypothesis corpus_nonempty : corpus ≠ ∅.
Hypothesis weights_positive : ∀ p links,
  corpus !! p = Some links →
  0 < sum_over (keys corpus) (transition_value corpus links d).

Lemma sample_step_inv i st :
  sample_inv corpus i st →
  ∃ st', sample_step corpus d st = Ok st' ∧ sample_inv corpus (S i) st'.
Proof.
  destruct st as [[page_counts page] g]. intros (Hdom & Hpage & Hsum).
  simpl in Hdom, Hpage, Hsum. unfold sample_step.
  assert (is_Some (page_counts !! page)) as [c Hc]
    by (apply elem_of_dom; by rewrite Hdom).
  assert (is_Some (corpus !! page)) as [links Hlinks] by by apply elem_of_dom.
  rewrite (getitem_Some _ _ _ Hc). simpl.
  destruct (transition_model_lookup corpus page links d Hlinks)
    as (model & Hmodel & Hdomm & _).
  rewrite Hmodel. simpl.
  destruct (random_choices_Ok (keys model) (values model) g) as (page' & -> & Hin).
  - apply keys_nonempty. intros ->. apply corpus_nonempty.
    apply dom_empty_iff_L. by rewrite <- Hdomm, dom_empty_L.
  - apply length_values_keys.
  - rewrite (transition_model_total corpus page links d model Hlinks Hmodel).
    by apply (weights_positive page).
  - simpl. eexists. split; [done|]. split; [|split]; simpl.
    + rewrite dom_insert_L, subseteq_union_1_L; [done|].
      apply singleton_subseteq_l. by rewrite Hdom.
    + rewrite <- Hdomm. by apply elem_of_keys.
    + rewrite (sum_over_update _ (count_of page_counts) _ page 1).
      * rewrite Hsum, Nat2Z.inj_succ, <- Z.add_1_r, inject_Z_plus. done.
      * apply NoDup_keys.
      * by apply elem_of_keys.
      * intros q _ Hne. unfold count_of. by rewrite lookup_insert_ne.
      * unfold count_of. rewrite lookup_insert_eq, Hc. simpl.
        by rewrite inject_Z_plus.
Qed.

(** A positive number of samples yields a mapping over the pages of the
    graph whose values add up to 1. *)
Lemma sample_pagerank_returns (n : Z) (g : nat → Q) :
  (0 < n)%Z → 0 <= g O → g O < 1 →
  ∃ page_counts g',
    sample_pagerank corpus d n g
    = Ok ((λ c, inject_Z c / inject_Z n) <$> page_counts, g') ∧
    dom page_counts = dom corpus ∧
    sum_over (keys corpus) (count_of page_counts) == inject_Z n ∧
    Qsum (values ((λ c, inject_Z c / inject_Z n) <$> page_counts)) == 1.
Proof.
  intros Hn H0 H1. unfold sample_pagerank.
  destruct (random_choice_Ok (keys corpus) g) as (page & -> & Hpage);
    [by apply keys_nonempty|done..|]. simpl.
  set (counts0 := foldl (λ acc page, <[page := 0%Z]> acc) ∅ (keys corpus)).
  destruct (for_in_invariant (sample_inv corpus) (seq 0 (Z.to_nat n))
    (λ st _, sample_step corpus d st) (counts0, page, λ i, g (S i)))
    as ([[page_counts page'] g'] & -> & Hdom & _ & Hsum).
  - split; [|split]; simpl.
    + unfold counts0.
      rewrite (dom_foldl_insert (λ _, 0%Z)), list_to_set_keys, dom_empty_L.
      apply (right_id_L ∅ (∪)).
    + by apply elem_of_keys.
    + rewrite (sum_over_ext _ _ (λ _, 0)); [by rewrite sum_over_zero|].
      intros p Hp. unfold count_of, counts0.
      by rewrite (lookup_foldl_insert (λ _, 0%Z)), decide_True.
  - intros i _ st _. apply sample_step_inv.
  - simpl in Hdom, Hsum. simpl.
    rewrite final_division by lia. simpl.
    rewrite length_seq, Z2Nat.id in Hsum by lia.
    eexists _, _. split; [done|]. split; [done|]. split; [done|].
    rewrite (Qsum_values _ (λ p, count_of page_counts p * / inject_Z n)).
    * rewrite sum_over_scal_r.
      rewrite (sum_over_Permutation _ (keys corpus)); last first.
      { apply keys_Permutation. by rewrite dom_fmap_L. }
      rewrite Hsum. field. change 0 with (inject_Z 0).
      rewrite inject_Z_injective. lia.
    * intros p v. rewrite lookup_fmap. unfold count_of.
      destruct (page_counts !! p); [|done]. by intros [= <-].
Qed.
End sample.

(** Without samples the counters stay at zero and line 96 divides them by
    the sample count as it is. *)
Lemma sample_pagerank_no_samples (corpus : graph) (d : Q) (n : Z) (g : nat → Q) :
  corpus ≠ ∅ → 0 <= g O → g O < 1 → (n <= 0)%Z →
  sample_pagerank corpus d n g
  = '(pageranks) ← for_in
        (items (foldl (λ acc page, <[page := 0%Z]> acc) (∅ : gmap string Z) (keys corpus)))
        (λ acc '(page, count),
           v ← truediv (inject_Z count) (inject_Z n); Ok (<[page := v]> acc)) (∅ : ranks);
    Ok (pageranks, λ i, g (S i)).
Proof.
  intros Hne H0 H1 Hn. unfold sample_pagerank.
  destruct (random_choice_Ok (keys corpus) g) as (page & -> & _);
    [by apply keys_nonempty|done..|]. simpl.
  assert (Z.to_nat n = 0%nat) as -> by lia. done.
Qed.

Lemma initial_counts_lookup (corpus : graph) (p : string) :
  p ∈ dom corpus →
  foldl (λ acc page, <[page := 0%Z]> acc) (∅ : gmap string Z) (keys corpus) !! p
  = Some 0%Z.
Proof.
  intros Hp. rewrite (lookup_foldl_insert (λ _, 0%Z)), decide_True; [done|].
  by apply elem_of_keys.
Qed.

Lemma sample_pagerank_zero (corpus : graph) (d : Q) (g : nat → Q) :
  corpus ≠ ∅ → 0 <= g O → g O < 1 →
  sample_pagerank corpus d 0 g = Raise ZeroDivisionError.
Proof.
  intros Hne H0 H1. rewrite sample_pagerank_no_samples by done.
  rewrite final_division_zero; [done|].
  intros Hempty. apply Hne, dom_empty_iff_L.
  apply set_eq. intros p. split; [|by intros ?%not_elem_of_empty].
  intros Hp. pose proof (initial_counts_lookup corpus p Hp) as Hl.
  rewrite Hempty, lookup_empty in Hl. done.
Qed.

Lemma sample_pagerank_negative (corpus : graph) (d : Q) (n : Z) (g : nat → Q) :
  corpus ≠ ∅ → 0 <= g O → g O < 1 → (n < 0)%Z →
  ∃ r, sample_pagerank corpus d n g = Ok (r, λ i, g (S i)) ∧
       dom r = dom corpus ∧
       ∀ p, p ∈ dom corpus → r !! p = Some (inject_Z 0 / inject_Z n).
Proof.
  intros Hne H0 H1 Hn. rewrite sample_pagerank_no_samples by (done || lia).
  rewrite final_division by lia. simpl. eexists. split; [done|]. split.
  - rewrite dom_fmap_L, (dom_foldl_insert (λ _, 0%Z)), list_to_set_keys, dom_empty_L.
    apply (right_id_L ∅ (∪)).
  - intros p Hp. by rewrite lookup_fmap, initial_counts_lookup.
Qed.

Lemma sample_pagerank_empty (d : Q) (n : Z) (g : nat → Q) :
  sample_pagerank ∅ d n g = Raise IndexError.
Proof. unfold sample_pagerank. by rewrite keys_empty. Qed.

(** * [crawl] *)

Lemma no_self_links_insert (pages : graph) (p : string) (links : gset string) :
  no_self_links pages → p ∉ links → no_self_links (<[p := links]> pages).
Proof.
  intros Hpages Hp q links'. destruct (decide (q = p)) as [->|Hne].
  - rewrite lookup_insert_eq. by intros [= <-].
  - rewrite lookup_insert_ne by done. apply Hpages.
Qed.

Section crawl_correct.
Variable findall : string → list string.

(** The first loop never keeps a link from a page to itself; the second
    keeps only the links that are pages themselves, one page per pass. *)
Lemma crawl_invariant (directory : list (string * string)) :
  ∃ pages, crawl findall directory = Ok pages ∧
           closed_universe pages ∧ no_self_links pages.
Proof.
  unfold crawl.
  match goal with |- context [for_in directory ?body ?s] =>
    destruct (for_in_invariant (λ _ (pages : graph), no_self_links pages)
                directory body s) as (pages0 & -> & Hself)
  end.
  { intros p links. by rewrite lookup_empty. }
  { intros _ [filename contents] pages _ Hpages. simpl.
    destruct (endswith filename ".html"); simpl; [|by eauto].
    eexists. split; [done|]. apply no_self_links_insert; [done|].
    rewrite elem_of_difference, elem_of_singleton. tauto. }
  simpl in Hself. simpl.
  match goal with |- context [for_in (keys pages0) ?body ?s] =>
    destruct (for_in_invariant (λ i (pages : graph),
      dom pages = dom pages0 ∧ no_self_links pages ∧
      ∀ j p links, (j < i)%nat → keys pages0 !! j = Some p →
        pages !! p = Some links → links ⊆ dom pages0) (keys pages0) body s)
    as (pages & -> & Hdom & Hself' & Hclosed)
  end.
  { split; [done|]. split; [done|]. intros; lia. }
  { intros i x pages Hx (Hdom & Hself' & Hclosed).
    assert (is_Some (pages !! x)) as [links Hlinks].
    { apply elem_of_dom. rewrite Hdom. apply elem_of_keys.
      by eapply list_elem_of_lookup_2. }
    rewrite (getitem_Some _ _ _ Hlinks). simpl.
    eexists. split; [done|]. split; [|split].
    + rewrite dom_insert_L, subseteq_union_1_L; [done|].
      apply singleton_subseteq_l, elem_of_dom. eauto.
    + apply no_self_links_insert; [done|].
      rewrite elem_of_filter. intros [_ Hin]. by apply (Hself' x links).
    + intros j p links' Hj Hp. destruct (decide (p = x)) as [->|Hne].
      * rewrite lookup_insert_eq. intros [= <-] link.
        rewrite elem_of_filter, Hdom. tauto.
      * rewrite lookup_insert_ne by done. intros Hl.
        destruct (decide (j = i)) as [->|]; [congruence|].
        apply (Hclosed j p); [lia|done..]. }
  exists pages. split; [done|]. split; [|done].
  intros p links Hp.
  assert (p ∈ keys pages0) as [j Hj]%list_elem_of_lookup_1.
  { apply elem_of_keys. rewrite <- Hdom. apply elem_of_dom. eauto. }
  rewrite Hdom. apply (Hclosed j p); [|done..].
  by apply lookup_lt_Some in Hj.
Qed.
End crawl_correct.

(** * The scenarios of the specification *)

(** On [{A: set(), B: {A}}] the dead end [A] sends the surfer anywhere. *)
Example transition_model_dead_end_scenario :
  ∃ m, transition_model dead_end "A" (85 # 100) = Ok m ∧
       m !! "A" = Some (1 / 2) ∧ m !! "B" = Some (1 / 2).
Proof. eexists. split; [vm_compute; reflexivity|]. by vm_compute. Qed.

(** On the cycle [A -> B -> C -> A] the first round already settles and
    every page gets a third. *)
Example iterate_pagerank_cycle3_scenario :
  ∃ r, iterate_pagerank 1 cycle3 (85 # 100) = Some (Ok r) ∧
       rank_of r "A" == 1 # 3 ∧ rank_of r "B" == 1 # 3 ∧ rank_of r "C" == 1 # 3.
Proof. eexists. split; [vm_compute; reflexivity|]. by vm_compute. Qed.

(** On [{A: set(), B: {A}}] the dead end [A] ends up above [B]. *)
Example iterate_pagerank_dead_end_scenario :
  ∃ r, iterate_pagerank 8 dead_end (85 # 100) = Some (Ok r) ∧
       rank_of r "B" < rank_of r "A".
Proof. eexists. split; [vm_compute; reflexivity|]. by vm_compute. Qed.

(** A link that leaves the graph lets [sample_pagerank] fail in
    [random.choices] and [iterate_pagerank] in its last division when the
    damping factor is 1. *)
Example dangling_scenario :
  (∃ e, sample_pagerank dangling 1 1 half_rng = Raise e ∧ e = ValueError) ∧
  iterate_pagerank 2 dangling 1 = Some (Raise ZeroDivisionError).
Proof. split; [eexists; split|]; by vm_compute. Qed.

(** * The claims of the specification *)

(** ** The transition model *)

(** C2.  For every non-empty link graph (every link is a page of the
    graph), every page [p] of it and every damping factor in [[0,1]], the
    probabilities returned by [transition_model] add up to exactly 1 in
    exact arithmetic, and there is one for every page of the graph. *)
Theorem transition_model_sums_to_one (corpus : graph) (p : string) (d : Q) :
  corpus ≠ ∅ → closed_universe corpus → p ∈ dom corpus → 0 <= d → d <= 1 →
  ∃ m, transition_model corpus p d = Ok m ∧ dom m = dom corpus ∧
       Qsum (values m) == 1.
Proof.
  intros Hne Hclosed [links Hp]%elem_of_dom _ _.
  destruct (transition_model_lookup corpus p links d Hp) as (m & Hm & Hdom & _).
  exists m. split; [done|]. split; [done|].
  rewrite (transition_model_total corpus p links d m Hp Hm).
  apply transition_value_sum_closed; [done|]. by apply (Hclosed p).
Qed.

Lemma transition_model_sums_to_one_witness :
  cycle3 ≠ ∅ ∧ closed_universe cycle3 ∧ "A" ∈ dom cycle3 ∧
  0 <= 85 # 100 ∧ 85 # 100 <= 1 ∧
  ∃ m, transition_model cycle3 "A" (85 # 100) = Ok m ∧ dom m = dom cycle3 ∧
       Qsum (values m) == 1.
Proof.
  assert (cycle3 ≠ ∅) as H1 by (by vm_compute).
  assert (closed_universe cycle3) as H2.
  { change (map_Forall (λ _ links, links ⊆ dom cycle3) cycle3).
    apply (bool_decide_unpack _). by vm_compute. }
  assert ("A" ∈ dom cycle3) as H3 by (by vm_compute).
  assert (0 <= 85 # 100) as H4 by (by vm_compute).
  assert (85 # 100 <= 1) as H5 by (by vm_compute).
  split; [exact H1|]. split; [exact H2|]. split; [exact H3|].
  split; [exact H4|]. split; [exact H5|].
  exact (transition_model_sums_to_one cycle3 "A" (85 # 100) H1 H2 H3 H4 H5).
Defined.

(** Outside the data model: in [{A: {B}}] the only link of [A] leaves the
    graph, and with damping 1/2 the one probability returned is 1/2. *)
Example transition_model_dangling_total :
  dangling ≠ ∅ ∧ "A" ∈ dom dangling ∧ ¬ closed_universe dangling ∧
  ∃ m, transition_model dangling "A" (1 # 2) = Ok m ∧
       Qsum (values m) == 1 # 2.
Proof.
  split; [by vm_compute|]. split; [by vm_compute|]. split.
  - intros H. specialize (H "A" {["B"]} eq_refl "B").
    revert H. rewrite elem_of_singleton. intros H. specialize (H eq_refl).
    revert H. by vm_compute.
  - eexists. split; by vm_compute.
Qed.

(** C3.  For a page without links [transition_model] returns the uniform
    distribution: every page of the graph, the page itself included, gets
    exactly [1/N], and the damping factor plays no part. *)
Theorem transition_model_dead_end (corpus : graph) (p : string) (d : Q) :
  corpus !! p = Some ∅ →
  ∃ m, transition_model corpus p d = Ok m ∧ dom m = dom corpus ∧
       m !! p = Some (1 / len corpus) ∧
       ∀ q, q ∈ dom corpus → m !! q = Some (1 / len corpus).
Proof.
  intros Hp.
  destruct (transition_model_lookup corpus p ∅ d Hp) as (m & Hm & Hdom & Hval).
  exists m. split; [done|]. split; [done|].
  assert (∀ q, q ∈ dom corpus → m !! q = Some (1 / len corpus)) as H.
  { intros q Hq. by rewrite (Hval q Hq). }
  split; [|done]. apply H, elem_of_dom. eauto.
Qed.

Lemma transition_model_dead_end_witness :
  dead_end !! "A" = Some ∅ ∧
  ∃ m, transition_model dead_end "A" (85 # 100) = Ok m ∧ dom m = dom dead_end ∧
       m !! "A" = Some (1 / len dead_end) ∧
       ∀ q, q ∈ dom dead_end → m !! q = Some (1 / len dead_end).
Proof.
  assert (dead_end !! "A" = Some ∅) as H by reflexivity.
  split; [exact H|].
  exact (transition_model_dead_end dead_end "A" (85 # 100) H).
Defined.

(** C4.  For a page with a non-empty link set of size [k] and a damping
    factor in [[0,1]], every page outside the link set gets exactly
    [(1-d)/N] and every page in it exactly [(1-d)/N + d/k]; the latter is at
    least [(1-d)/N], and strictly more than what any page outside the link
    set gets as soon as [d > 0]. *)
Theorem transition_model_neighbors (corpus : graph) (p : string)
    (links : gset string) (d : Q) :
  corpus !! p = Some links → links ≠ ∅ → 0 <= d → d <= 1 →
  ∃ m, transition_model corpus p d = Ok m ∧ dom m = dom corpus ∧
    (∀ q, q ∈ dom corpus → q ∉ links → m !! q = Some ((1 - d) / len corpus)) ∧
    (∀ n, n ∈ dom corpus → n ∈ links →
       m !! n = Some ((1 - d) / len corpus + d / len_set links) ∧
       (1 - d) / len corpus <= (1 - d) / len corpus + d / len_set links) ∧
    (0 < d → ∀ n q, n ∈ dom corpus → n ∈ links → q ∈ dom corpus → q ∉ links →
       rank_of m q < rank_of m n).
Proof.
  intros Hp Hlinks Hd0 Hd1.
  destruct (transition_model_lookup corpus p links d Hp) as (m & Hm & Hdom & Hval).
  pose proof (len_set_pos links Hlinks) as Hk.
  assert (truthy links = true) as Ht by by apply truthy_true.
  assert (∀ q, q ∈ dom corpus → q ∉ links → m !! q = Some ((1 - d) / len corpus))
    as Hout.
  { intros q Hq Hnot. rewrite (Hval q Hq). unfold transition_value.
    by rewrite Ht, bool_decide_false. }
  assert (∀ n, n ∈ dom corpus → n ∈ links →
          m !! n = Some ((1 - d) / len corpus + d / len_set links)) as Hin.
  { intros n Hn Hmem. rewrite (Hval n Hn). unfold transition_value.
    by rewrite Ht, bool_decide_true. }
  exists m. split; [done|]. split; [done|]. split; [done|]. split.
  - intros n Hn Hmem. split; [by apply Hin|].
    assert (0 <= d / len_set links).
    { apply Qle_shift_div_l; [done|]. lra. }
    lra.
  - intros Hd n q Hn Hmem Hq Hnot.
    rewrite (rank_of_Some _ _ _ (Hin n Hn Hmem)).
    rewrite (rank_of_Some _ _ _ (Hout q Hq Hnot)).
    assert (0 < d / len_set links).
    { apply Qlt_shift_div_l; [done|]. lra. }
    lra.
Qed.

Lemma transition_model_neighbors_witness :
  dead_end !! "B" = Some {["A"]} ∧ ({["A"]} : gset string) ≠ ∅ ∧
  0 <= 85 # 100 ∧ 85 # 100 <= 1 ∧
  ∃ m, transition_model dead_end "B" (85 # 100) = Ok m ∧ dom m = dom dead_end ∧
    (∀ q, q ∈ dom dead_end → q ∉ ({["A"]} : gset string) →
       m !! q = Some ((1 - (85 # 100)) / len dead_end)) ∧
    (∀ n, n ∈ dom dead_end → n ∈ ({["A"]} : gset string) →
       m !! n = Some ((1 - (85 # 100)) / len dead_end + (85 # 100) / len_set {["A"]}) ∧
       (1 - (85 # 100)) / len dead_end
       <= (1 - (85 # 100)) / len dead_end + (85 # 100) / len_set {["A"]}) ∧
    (0 < 85 # 100 → ∀ n q, n ∈ dom dead_end → n ∈ ({["A"]} : gset string) →
       q ∈ dom dead_end → q ∉ ({["A"]} : gset string) →
       rank_of m q < rank_of m n).
Proof.
  assert (dead_end !! "B" = Some {["A"]}) as H1 by reflexivity.
  assert (({["A"]} : gset string) ≠ ∅) as H2 by (by vm_compute).
  assert (0 <= 85 # 100) as H3 by (by vm_compute).
  assert (85 # 100 <= 1) as H4 by (by vm_compute).
  split; [exact H1|]. split; [exact H2|]. split; [exact H3|]. split; [exact H4|].
  exact (transition_model_neighbors dead_end "B" {["A"]} (85 # 100) H1 H2 H3 H4).
Defined.


(** ** The iterative estimator, round by round *)

(** The ranks [1/3] for each page of [cycle3]. *)
Lemma uniform3_dom : dom ((λ _, 1 # 3) <$> cycle3 : gmap string Q) = dom cycle3.
Proof. apply dom_fmap_L. Qed.

(** C1.  Starting from any rank mapping over the pages of the graph, one
    round gives every page [p] the rank
    [(1-d)/N + d * sum over q of (PR(q)/N if q has no links, PR(q)/L(q) if q
    links to p, 0 otherwise)]; the loop stops at this round exactly when
    every page moved by strictly less than 0.001, and otherwise adopts the
    new ranks and goes round again.  This holds for every graph, so for
    every graph with the closed-universe invariant, and every damping. *)
Theorem iterate_round_and_stop (corpus : graph) (d : Q) (pagerank : ranks) :
  dom pagerank = dom corpus →
  ∃ new_rank,
    compute_round corpus d (len corpus) pagerank = Ok new_rank ∧
    dom new_rank = dom corpus ∧
    (∀ p, p ∈ dom corpus →
       rank_of new_rank p == spec_new_rank corpus d (rank_of pagerank) p) ∧
    (loop_body corpus d (len corpus) pagerank = Ok (Break pagerank)
       ↔ all_settled new_rank pagerank) ∧
    (loop_body corpus d (len corpus) pagerank = Ok (Continue new_rank)
       ↔ ¬ all_settled new_rank pagerank) ∧
    (all_settled new_rank pagerank → ∀ fuel,
       while_true (S fuel) corpus d (len corpus) pagerank = Some (Ok pagerank)) ∧
    (¬ all_settled new_rank pagerank → ∀ fuel,
       while_true (S fuel) corpus d (len corpus) pagerank
       = while_true fuel corpus d (len corpus) new_rank).
Proof.
  intros Hdom.
  destruct (compute_round_spec corpus d pagerank Hdom) as (new_rank & Hnew & Hdomn & Hspec).
  destruct (loop_body_spec corpus d pagerank Hdom) as (y & Hy & _ & Hstop & Hgo).
  rewrite Hnew in Hy. injection Hy as <-.
  destruct (converged_spec new_rank pagerank) as (b & _ & Hb); [congruence|].
  exists new_rank. split; [done|]. split; [done|]. split; [done|].
  destruct b.
  - assert (all_settled new_rank pagerank) as Hs by by apply Hb.
    specialize (Hstop Hs).
    split; [by split|]. split; [|split].
    + rewrite Hstop. split; [done|]. intros Hns. exfalso. by apply Hns.
    + intros _ fuel. simpl. by rewrite Hstop.
    + intros Hns. exfalso. by apply Hns.
  - assert (¬ all_settled new_rank pagerank) as Hns.
    { intros Hs. by apply Hb in Hs. }
    specialize (Hgo Hns).
    split; [|split; [by split|split]].
    + rewrite Hgo. split; [done|]. intros Hs. exfalso. by apply Hns.
    + intros Hs. exfalso. by apply Hns.
    + intros _ fuel. simpl. by rewrite Hgo.
Qed.

Lemma iterate_round_and_stop_witness :
  dom ((λ _, 1 # 3) <$> cycle3 : gmap string Q) = dom cycle3 ∧
  ∃ new_rank,
    compute_round cycle3 (85 # 100) (len cycle3) ((λ _, 1 # 3) <$> cycle3)
      = Ok new_rank ∧
    dom new_rank = dom cycle3 ∧
    (∀ p, p ∈ dom cycle3 →
       rank_of new_rank p
       == spec_new_rank cycle3 (85 # 100) (rank_of ((λ _, 1 # 3) <$> cycle3)) p) ∧
    (loop_body cycle3 (85 # 100) (len cycle3) ((λ _, 1 # 3) <$> cycle3)
       = Ok (Break ((λ _, 1 # 3) <$> cycle3))
       ↔ all_settled new_rank ((λ _, 1 # 3) <$> cycle3)) ∧
    (loop_body cycle3 (85 # 100) (len cycle3) ((λ _, 1 # 3) <$> cycle3)
       = Ok (Continue new_rank)
       ↔ ¬ all_settled new_rank ((λ _, 1 # 3) <$> cycle3)) ∧
    (all_settled new_rank ((λ _, 1 # 3) <$> cycle3) → ∀ fuel,
       while_true (S fuel) cycle3 (85 # 100) (len cycle3) ((λ _, 1 # 3) <$> cycle3)
       = Some (Ok ((λ _, 1 # 3) <$> cycle3))) ∧
    (¬ all_settled new_rank ((λ _, 1 # 3) <$> cycle3) → ∀ fuel,
       while_true (S fuel) cycle3 (85 # 100) (len cycle3) ((λ _, 1 # 3) <$> cycle3)
       = while_true fuel cycle3 (85 # 100) (len cycle3) new_rank).
Proof.
  assert (dom ((λ _, 1 # 3) <$> cycle3 : gmap string Q) = dom cycle3) as H
    by (vm_compute; reflexivity).
  split; [exact H|].
  exact (iterate_round_and_stop cycle3 (85 # 100) ((λ _, 1 # 3) <$> cycle3) H).
Defined.

(** C10.  When [iterate_pagerank] returns, the mapping it returns is the
    last adopted mapping divided by its own sum.  The last adopted mapping
    is the one held after [k] rounds, where round [k+1] is the first to
    pass the convergence test: the round computed from it differs from it
    by less than 0.001 on every page and is thrown away, while every
    earlier round failed the test and was adopted. *)
Theorem iterate_pagerank_returns_last_adopted (corpus : graph) (d : Q)
    (fuel : nat) (r : ranks) :
  iterate_pagerank fuel corpus d = Some (Ok r) →
  ∃ k last new_rank,
    (k < fuel)%nat ∧
    adopted corpus d k = Ok last ∧
    adopted corpus d (S k) = Ok new_rank ∧
    compute_round corpus d (len corpus) last = Ok new_rank ∧
    converged new_rank last = Ok true ∧
    all_settled new_rank last ∧
    (∀ j, (j < k)%nat → ∃ x x',
       adopted corpus d j = Ok x ∧ adopted corpus d (S j) = Ok x' ∧
       converged x' x = Ok false ∧ ¬ all_settled x' x) ∧
    normalize last = Ok r ∧
    r = (λ v, v / Qsum (values last)) <$> last.
Proof.
  unfold iterate_pagerank.
  destruct (initial_rank corpus (len corpus)) as [x0|] eqn:H0; [|done].
  destruct (while_true fuel corpus d (len corpus) x0) as [[last|]|] eqn:Hrun;
    [|done..].
  intros [= Hr].
  destruct (while_true_first_settled corpus d fuel 0 x0 last H0 Hrun)
    as (k & new_rank & Hlt & Hk & Hnew & Hconv & Hearlier).
  exists k, last, new_rank. simpl in Hk.
  assert (∀ y y', dom y = dom corpus →
            compute_round corpus d (len corpus) y = Ok y' →
            ∀ b, converged y' y = Ok b → (b = true ↔ all_settled y' y)) as Hdecide.
  { intros y y' Hdom Hy b Hb.
    destruct (compute_round_spec corpus d y Hdom) as (z & Hz & Hdomz & _).
    rewrite Hy in Hz. injection Hz as <-.
    destruct (converged_spec y' y) as (b' & Hb' & Hiff); [congruence|].
    rewrite Hb in Hb'. by injection Hb' as <-. }
  split; [done|]. split; [done|].
  split; [simpl; by rewrite Hk|]. split; [done|]. split; [done|].
  split; [|split; [|split; [done|by apply normalize_Ok_inv]]].
  - by apply (Hdecide last new_rank (adopted_dom corpus d k last Hk) Hnew true).
  - intros j Hj. destruct (Hearlier j Hj) as (x & x' & Hx & Hxx' & Hfalse).
    simpl in Hx. exists x, x'. split; [done|].
    split; [simpl; by rewrite Hx|]. split; [done|].
    intros Hs.
    apply (Hdecide x x' (adopted_dom corpus d j x Hx) Hxx' false Hfalse) in Hs.
    done.
Qed.


Lemma iterate_pagerank_returns_last_adopted_witness :
  iterate_pagerank 8 dead_end (85 # 100)
    = Some (Ok (returned (iterate_pagerank 8 dead_end (85 # 100)))) ∧
  ∃ k last new_rank,
    (k < 8)%nat ∧
    adopted dead_end (85 # 100) k = Ok last ∧
    adopted dead_end (85 # 100) (S k) = Ok new_rank ∧
    compute_round dead_end (85 # 100) (len dead_end) last = Ok new_rank ∧
    converged new_rank last = Ok true ∧
    all_settled new_rank last ∧
    (∀ j, (j < k)%nat → ∃ x x',
       adopted dead_end (85 # 100) j = Ok x ∧
       adopted dead_end (85 # 100) (S j) = Ok x' ∧
       converged x' x = Ok false ∧ ¬ all_settled x' x) ∧
    normalize last = Ok (returned (iterate_pagerank 8 dead_end (85 # 100))) ∧
    returned (iterate_pagerank 8 dead_end (85 # 100))
      = (λ v, v / Qsum (values last)) <$> last.
Proof.
  assert (iterate_pagerank 8 dead_end (85 # 100)
          = Some (Ok (returned (iterate_pagerank 8 dead_end (85 # 100))))) as H
    by (vm_compute; reflexivity).
  split; [exact H|].
  exact (iterate_pagerank_returns_last_adopted dead_end (85 # 100) 8 _ H).
Defined.

(** That description fits one round only: two rounds that both pass the
    convergence test after every earlier round failed it are the same. *)
Lemma stopping_round_unique (corpus : graph) (d : Q) (k k' : nat)
    (last new_rank last' new_rank' : ranks) :
  adopted corpus d k = Ok last → adopted corpus d (S k) = Ok new_rank →
  converged new_rank last = Ok true →
  (∀ j, (j < k)%nat → ∃ x x',
     adopted corpus d j = Ok x ∧ adopted corpus d (S j) = Ok x' ∧
     converged x' x = Ok false) →
  adopted corpus d k' = Ok last' → adopted corpus d (S k') = Ok new_rank' →
  converged new_rank' last' = Ok true →
  (∀ j, (j < k')%nat → ∃ x x',
     adopted corpus d j = Ok x ∧ adopted corpus d (S j) = Ok x' ∧
     converged x' x = Ok false) →
  k = k' ∧ last = last'.
Proof.
  intros Hk HSk Hconv Hearlier Hk' HSk' Hconv' Hearlier'.
  destruct (Nat.lt_trichotomy k k') as [Hlt|[<-|Hlt]].
  - destruct (Hearlier' k Hlt) as (x & x' & Hx & Hx' & Hfalse).
    rewrite Hk in Hx. rewrite HSk in Hx'. injection Hx as <-. injection Hx' as <-.
    congruence.
  - split; [done|]. congruence.
  - destruct (Hearlier k' Hlt) as (x & x' & Hx & Hx' & Hfalse).
    rewrite Hk' in Hx. rewrite HSk' in Hx'. injection Hx as <-. injection Hx' as <-.
    congruence.
Qed.

(** On [{A: set(), B: {A}}] with damping 0.85 the loop stops in its eighth
    round; dividing the discarded eighth round by its sum would have given
    [A] another rank than the one returned. *)
Lemma discarded_round_differs :
  ∃ last new_rank r r',
    adopted dead_end (85 # 100) 7 = Ok last ∧
    compute_round dead_end (85 # 100) (len dead_end) last = Ok new_rank ∧
    iterate_pagerank 8 dead_end (85 # 100) = Some (Ok r) ∧
    normalize last = Ok r ∧
    normalize new_rank = Ok r' ∧
    ¬ rank_of r' "A" == rank_of r "A".
Proof.
  eexists _, _, _, _.
  split; [vm_compute; reflexivity|]. split; [vm_compute; reflexivity|].
  split; [vm_compute; reflexivity|]. split; [vm_compute; reflexivity|].
  split; [vm_compute; reflexivity|]. by vm_compute.
Qed.

(** ** The results of the two estimators *)

(** C6.  [iterate_pagerank] is a function of the graph and the damping
    factor alone: it reads no random source, and whenever two runs on the
    same arguments end, whatever the fuel they were given, they end the
    same way. *)
Theorem iterate_pagerank_deterministic (corpus : graph) (d : Q)
    (fuel1 fuel2 : nat) (o1 o2 : result ranks) :
  iterate_pagerank fuel1 corpus d = Some o1 →
  iterate_pagerank fuel2 corpus d = Some o2 →
  o1 = o2.
Proof.
  intros H1 H2.
  apply (iterate_pagerank_mono corpus d fuel1 (fuel1 `max` fuel2)) in H1; [|lia].
  apply (iterate_pagerank_mono corpus d fuel2 (fuel1 `max` fuel2)) in H2; [|lia].
  congruence.
Qed.

Lemma iterate_pagerank_deterministic_witness :
  iterate_pagerank 8 dead_end (85 # 100)
    = Some (Ok (returned (iterate_pagerank 8 dead_end (85 # 100)))) ∧
  iterate_pagerank 9 dead_end (85 # 100)
    = Some (Ok (returned (iterate_pagerank 9 dead_end (85 # 100)))) ∧
  Ok (returned (iterate_pagerank 8 dead_end (85 # 100)))
    = Ok (returned (iterate_pagerank 9 dead_end (85 # 100))).
Proof.
  assert (iterate_pagerank 8 dead_end (85 # 100)
          = Some (Ok (returned (iterate_pagerank 8 dead_end (85 # 100))))) as H1
    by (vm_compute; reflexivity).
  assert (iterate_pagerank 9 dead_end (85 # 100)
          = Some (Ok (returned (iterate_pagerank 9 dead_end (85 # 100))))) as H2
    by (vm_compute; reflexivity).
  split; [exact H1|]. split; [exact H2|].
  exact (iterate_pagerank_deterministic dead_end (85 # 100) 8 9 _ _ H1 H2).
Defined.






(** ** Invalid arguments and termination *)

(** C7, as amended.  Neither estimator checks its arguments.  On the empty
    graph [iterate_pagerank] returns the empty mapping, while
    [sample_pagerank] fails in [random.choice] with [IndexError]; on a
    non-empty graph, closed or not, a sample count of 0 makes
    [sample_pagerank] fail only in its last statement, with
    [ZeroDivisionError], and a negative sample count makes it return [0/n]
    for every page.  All of this happens whatever the damping factor is:
    it is never looked at on these paths. *)
Theorem estimators_do_not_validate (corpus : graph) (d : Q) (n : Z) (g : nat → Q) :
  corpus ≠ ∅ → valid_rng g → (n < 0)%Z →
  (∀ fuel, iterate_pagerank (S fuel) ∅ d = Some (Ok ∅)) ∧
  (∀ k, sample_pagerank ∅ d k g = Raise IndexError) ∧
  sample_pagerank corpus d 0 g = Raise ZeroDivisionError ∧
  (∃ r g', sample_pagerank corpus d n g = Ok (r, g') ∧ dom r = dom corpus ∧
           ∀ p, p ∈ dom corpus → r !! p = Some (inject_Z 0 / inject_Z n)).
Proof.
  intros Hne Hg Hn. destruct (Hg O) as [H0 H1].
  split; [intros fuel; apply iterate_pagerank_empty|].
  split; [intros k; apply sample_pagerank_empty|].
  split; [by apply sample_pagerank_zero|].
  destruct (sample_pagerank_negative corpus d n g) as (r & Hr); [done..|].
  by exists r, (λ i, g (S i)).
Qed.

Lemma estimators_do_not_validate_witness :
  dangling ≠ ∅ ∧ valid_rng half_rng ∧ (-3 < 0)%Z ∧
  (∀ fuel, iterate_pagerank (S fuel) ∅ 2 = Some (Ok ∅)) ∧
  (∀ k, sample_pagerank ∅ 2 k half_rng = Raise IndexError) ∧
  sample_pagerank dangling 2 0 half_rng = Raise ZeroDivisionError ∧
  (∃ r g', sample_pagerank dangling 2 (-3) half_rng = Ok (r, g') ∧
           dom r = dom dangling ∧
           ∀ p, p ∈ dom dangling → r !! p = Some (inject_Z 0 / inject_Z (-3))).
Proof.
  assert (dangling ≠ ∅) as H1 by (by vm_compute).
  assert (valid_rng half_rng) as H2 by (intros i; split; by vm_compute).
  assert (-3 < 0)%Z as H3 by lia.
  split; [exact H1|]. split; [exact H2|]. split; [exact H3|].
  exact (estimators_do_not_validate dangling 2 (-3) half_rng H1 H2 H3).
Defined.

(** C7 as stated fails: called on the empty graph, [iterate_pagerank]
    raises nothing and returns the empty mapping. *)
Lemma iterate_pagerank_accepts_empty_graph :
  iterate_pagerank 1 ∅ (85 # 100) = Some (Ok ∅).
Proof. reflexivity. Qed.




(** ** The crawler *)

(** C9.  For every directory, and whatever the regular expression finds in
    its files, [crawl] returns a link graph in which every linked page is a
    key and no page links to itself. *)
Theorem crawl_link_graph (findall : string → list string)
    (directory : list (string * string)) :
  ∃ pages, crawl findall directory = Ok pages ∧
           closed_universe pages ∧ no_self_links pages.
Proof. apply crawl_invariant. Qed.


(** * Further properties *)

(** ** [transition_model] *)

(** X1.  [transition_model] raises [KeyError], and nothing else, exactly
    when the page is no key of the corpus; otherwise it returns a mapping
    whose keys are the pages of the corpus. *)
Theorem transition_model_outcome (corpus : graph) (p : string) (d : Q) :
  match transition_model corpus p d with
  | Ok m => p ∈ dom corpus ∧ dom m = dom corpus
  | Raise e => e = KeyError ∧ p ∉ dom corpus
  end.
Proof.
  destruct (corpus !! p) as [links|] eqn:Hp.
  - destruct (transition_model_lookup corpus p links d Hp) as (m & -> & Hdom & _).
    split; [|done]. apply elem_of_dom. eauto.
  - unfold transition_model. rewrite (getitem_None _ _ Hp). simpl.
    split; [done|]. by apply not_elem_of_dom.
Qed.

(** X2.  The probabilities returned for a page with links add up to
    [(1-d) + d * j/k], where [k] is the number of its links and [j] the
    number of them that are pages of the corpus; for a page without links
    they add up to 1. *)
Theorem transition_model_total_mass (corpus : graph) (p : string)
    (links : gset string) (d : Q) :
  corpus !! p = Some links →
  ∃ m, transition_model corpus p d = Ok m ∧
       Qsum (values m)
       == if decide (links = ∅) then 1
          else (1 - d)
               + d * (inject_Z (Z.of_nat (size (links ∩ dom corpus))) / len_set links).
Proof.
  intros Hp.
  destruct (transition_model_lookup corpus p links d Hp) as (m & Hm & _).
  exists m. split; [done|].
  rewrite (transition_model_total corpus p links d m Hp Hm).
  rewrite transition_value_sum by by eapply lookup_nonempty.
  destruct (decide (links = ∅)) as [Hl|Hl].
  - apply truthy_false in Hl. by rewrite Hl.
  - apply truthy_true in Hl. by rewrite Hl.
Qed.

Lemma transition_model_total_mass_witness :
  dangling !! "A" = Some {["B"]} ∧
  ∃ m, transition_model dangling "A" (1 # 2) = Ok m ∧
       Qsum (values m)
       == if decide (({["B"]} : gset string) = ∅) then 1
          else (1 - (1 # 2))
               + (1 # 2) * (inject_Z (Z.of_nat (size ({["B"]} ∩ dom dangling)))
                            / len_set {["B"]}).
Proof.
  assert (dangling !! "A" = Some {["B"]}) as H by reflexivity.
  split; [exact H|].
  exact (transition_model_total_mass dangling "A" {["B"]} (1 # 2) H).
Defined.

(** X3.  With a damping factor in [[0,1]] every probability returned lies
    in [[0,1]]. *)
Theorem transition_model_probabilities (corpus : graph) (p : string) (d : Q) :
  p ∈ dom corpus → 0 <= d → d <= 1 →
  ∃ m, transition_model corpus p d = Ok m ∧
       ∀ q v, m !! q = Some v → 0 <= v ∧ v <= 1.
Proof.
  intros [links Hp]%elem_of_dom Hd0 Hd1.
  destruct (transition_model_lookup corpus p links d Hp) as (m & Hm & Hdom & Hval).
  exists m. split; [done|]. intros q v Hq.
  assert (q ∈ dom corpus) as Hin by (rewrite <- Hdom; apply elem_of_dom; eauto).
  rewrite (Hval q Hin) in Hq. injection Hq as <-.
  pose proof (len_pos corpus (lookup_nonempty _ _ _ Hp)) as HN.
  assert (1 <= len corpus) as HN1.
  { pose proof (lookup_nonempty corpus p links Hp) as Hs.
    apply map_size_non_empty_iff in Hs.
    unfold len. change 1 with (inject_Z 1). rewrite <- Zle_Qle. lia. }
  assert (0 <= (1 - d) / len corpus ∧ (1 - d) / len corpus <= 1 - d) as [Hb0 Hb1].
  { split; [apply Qle_shift_div_l; [done|lra]|].
    apply Qle_shift_div_r; [done|]. nra. }
  assert (0 < 1 / len corpus ∧ 1 / len corpus <= 1) as [Hu0 Hu1].
  { split; [apply Qlt_shift_div_l; [done|lra]|].
    apply Qle_shift_div_r; [done|]. lra. }
  unfold transition_value. destruct (truthy links) eqn:Ht; [|lra].
  destruct (bool_decide (q ∈ links)); [|lra].
  apply truthy_true in Ht.
  pose proof (len_set_pos links Ht) as Hk.
  assert (1 <= len_set links) as Hk1.
  { assert (size links ≠ 0%nat) by (rewrite size_non_empty_iff; by unfold_leibniz).
    unfold len_set. change 1 with (inject_Z 1). rewrite <- Zle_Qle. lia. }
  assert (0 <= d / len_set links ∧ d / len_set links <= d) as [Hi0 Hi1].
  { split; [apply Qle_shift_div_l; [done|lra]|].
    apply Qle_shift_div_r; [done|]. nra. }
  lra.
Qed.

Lemma transition_model_probabilities_witness :
  "B" ∈ dom dead_end ∧ 0 <= 85 # 100 ∧ 85 # 100 <= 1 ∧
  ∃ m, transition_model dead_end "B" (85 # 100) = Ok m ∧
       ∀ q v, m !! q = Some v → 0 <= v ∧ v <= 1.
Proof.
  assert ("B" ∈ dom dead_end) as H1 by (by vm_compute).
  assert (0 <= 85 # 100) as H2 by (by vm_compute).
  assert (85 # 100 <= 1) as H3 by (by vm_compute).
  split; [exact H1|]. split; [exact H2|]. split; [exact H3|].
  exact (transition_model_probabilities dead_end "B" (85 # 100) H1 H2 H3).
Defined.

(** X4.  With damping 0 the links of the page play no part: every page of
    the corpus gets [1/N], as for a page without links. *)
Theorem transition_model_no_damping (corpus : graph) (p : string) (d : Q) :
  p ∈ dom corpus → d == 0 →
  ∃ m, transition_model corpus p d = Ok m ∧
       ∀ q, q ∈ dom corpus → rank_of m q == 1 / len corpus.
Proof.
  intros [links Hp]%elem_of_dom Hd.
  destruct (transition_model_lookup corpus p links d Hp) as (m & Hm & Hdom & Hval).
  exists m. split; [done|]. intros q Hq.
  rewrite (rank_of_Some _ _ _ (Hval q Hq)). unfold transition_value.
  destruct (truthy links); [|done].
  destruct (bool_decide (q ∈ links)); rewrite Hd; unfold Qdiv; ring.
Qed.

Lemma transition_model_no_damping_witness :
  "B" ∈ dom dead_end ∧ 0 == 0 ∧
  ∃ m, transition_model dead_end "B" 0 = Ok m ∧
       ∀ q, q ∈ dom dead_end → rank_of m q == 1 / len dead_end.
Proof.
  assert ("B" ∈ dom dead_end) as H1 by (by vm_compute).
  assert (0 == 0) as H2 by reflexivity.
  split; [exact H1|]. split; [exact H2|].
  exact (transition_model_no_damping dead_end "B" 0 H1 H2).
Defined.


(** ** [iterate_pagerank] *)

Lemma loop_body_total (corpus : graph) (d : Q) (x : ranks) :
  dom x = dom corpus →
  ∃ new_rank, compute_round corpus d (len corpus) x = Ok new_rank ∧
    dom new_rank = dom corpus ∧
    (loop_body corpus d (len corpus) x = Ok (Break x) ∨
     loop_body corpus d (len corpus) x = Ok (Continue new_rank)).
Proof.
  intros Hdom.
  destruct (compute_round_spec corpus d x Hdom) as (new_rank & Hnew & Hdomn & _).
  exists new_rank. split; [done|]. split; [done|].
  destruct (converged_spec new_rank x) as (b & Hb & _); [congruence|].
  unfold loop_body. rewrite Hnew. simpl. rewrite Hb. simpl.
  destruct b; [by left|by right].
Qed.

(** The loop itself raises nothing. *)
Lemma while_true_never_raises (corpus : graph) (d : Q) (fuel : nat) (x : ranks)
    (o : result ranks) :
  dom x = dom corpus →
  while_true fuel corpus d (len corpus) x = Some o → ∃ r, o = Ok r.
Proof.
  revert x. induction fuel as [|fuel IH]; intros x Hdom; [done|]. simpl.
  destruct (loop_body_total corpus d x Hdom) as (new_rank & _ & Hdomn & [-> | ->]).
  - intros [= <-]. eauto.
  - by apply IH.
Qed.

Lemma normalize_Raise (x : ranks) (e : exn) :
  normalize x = Raise e → e = ZeroDivisionError ∧ Qsum (values x) == 0.
Proof.
  destruct (Qeq_bool (Qsum (values x)) 0) eqn:E.
  - apply Qeq_bool_iff in E. unfold normalize.
    destruct (keys x) as [|p l] eqn:Hk; [done|].
    assert (p ∈ dom x) as Hp by (apply elem_of_keys; rewrite Hk; left).
    apply elem_of_dom in Hp as [v Hv]. cbn [for_in].
    rewrite (getitem_Some _ _ _ Hv). simpl.
    rewrite truediv_zero by done. simpl. by intros [= <-].
  - apply Qeq_bool_neq in E. by rewrite normalize_spec.
Qed.

(** What a run of [iterate_pagerank] that ended went through. *)
Lemma iterate_pagerank_inv (corpus : graph) (d : Q) (fuel : nat) (o : result ranks) :
  iterate_pagerank fuel corpus d = Some o →
  ∃ k last new_rank,
    adopted corpus d k = Ok last ∧
    compute_round corpus d (len corpus) last = Ok new_rank ∧
    all_settled new_rank last ∧
    o = normalize last.
Proof.
  unfold iterate_pagerank.
  destruct (initial_rank_spec corpus) as (x0 & H0 & Hdom0 & _). rewrite H0.
  destruct (while_true fuel corpus d (len corpus) x0) as [o'|] eqn:Hrun; [|done].
  destruct (while_true_never_raises corpus d fuel x0 o' Hdom0 Hrun) as [last ->].
  intros [= <-].
  destruct (while_true_adopted corpus d fuel 0 x0 last H0 Hrun)
    as (k & new_rank & Hk & Hnew & Hconv).
  exists k, last, new_rank. simpl in Hk.
  split; [done|]. split; [done|]. split; [|done].
  pose proof (adopted_dom corpus d k last Hk) as Hdom.
  destruct (compute_round_spec corpus d last Hdom) as (y & Hy & Hdomy & _).
  rewrite Hnew in Hy. injection Hy as <-.
  destruct (converged_spec new_rank last) as (b & Hb & Hiff); [congruence|].
  rewrite Hconv in Hb. injection Hb as <-. by apply Hiff.
Qed.

(** X5.  The only exception [iterate_pagerank] can raise is
    [ZeroDivisionError], and it does so in its final division, when the
    ranks it adopted last add up to zero. *)
Theorem iterate_pagerank_only_zero_division (corpus : graph) (d : Q)
    (fuel : nat) (e : exn) :
  iterate_pagerank fuel corpus d = Some (Raise e) →
  e = ZeroDivisionError ∧
  ∃ k last, adopted corpus d k = Ok last ∧ Qsum (values last) == 0 ∧
            normalize last = Raise ZeroDivisionError.
Proof.
  intros (k & last & new_rank & Hk & _ & _ & Hn)%iterate_pagerank_inv.
  symmetry in Hn. destruct (normalize_Raise last e Hn) as [-> Hsum].
  split; [done|]. by exists k, last.
Qed.

Lemma iterate_pagerank_only_zero_division_witness :
  iterate_pagerank 2 dangling 1 = Some (Raise ZeroDivisionError) ∧
  ZeroDivisionError = ZeroDivisionError ∧
  ∃ k last, adopted dangling 1 k = Ok last ∧ Qsum (values last) == 0 ∧
            normalize last = Raise ZeroDivisionError.
Proof.
  assert (iterate_pagerank 2 dangling 1 = Some (Raise ZeroDivisionError)) as H
    by (vm_compute; reflexivity).
  split; [exact H|].
  exact (iterate_pagerank_only_zero_division dangling 1 2 ZeroDivisionError H).
Defined.

(** ** Conservation of rank on a closed graph *)

Lemma spec_new_rank_ext (corpus : graph) (d : Q) (PR1 PR2 : string → Q) (p : string) :
  (∀ q, q ∈ dom corpus → PR1 q == PR2 q) →
  spec_new_rank corpus d PR1 p == spec_new_rank corpus d PR2 p.
Proof.
  intros H. rewrite !spec_new_rank_weight.
  rewrite (sum_over_ext _ (λ q, weight corpus p q * PR1 q)
             (λ q, weight corpus p q * PR2 q)); [done|].
  intros q Hq%elem_of_keys. by rewrite (H q Hq).
Qed.

Lemma spec_new_rank_total (corpus : graph) (d : Q) (PR : string → Q) :
  corpus ≠ ∅ → closed_universe corpus →
  sum_over (keys corpus) (spec_new_rank corpus d PR)
  == (1 - d) + d * sum_over (keys corpus) PR.
Proof.
  intros Hne Hclosed.
  rewrite (sum_over_ext _ _ (λ p, (1 - d) / len corpus
    + d * sum_over (keys corpus) (λ q, weight corpus p q * PR q))); last first.
  { intros p _. apply spec_new_rank_weight. }
  rewrite sum_over_plus, sum_over_const, sum_over_scal, length_keys.
  fold (len corpus). rewrite sum_over_swap.
  rewrite (sum_over_ext _ _ PR).
  { apply len_nonzero in Hne. by field. }
  intros q Hq%elem_of_keys. rewrite sum_over_scal_r.
  rewrite weight_column_closed; [ring|done|].
  apply elem_of_dom in Hq as [links Hl].
  rewrite (links_of_Some _ _ _ Hl). by apply (Hclosed q).
Qed.

Lemma initial_rank_total (corpus : graph) (x0 : ranks) :
  corpus ≠ ∅ → initial_rank corpus (len corpus) = Ok x0 →
  sum_over (keys corpus) (rank_of x0) == 1.
Proof.
  intros Hne H0.
  destruct (initial_rank_spec corpus) as (x & Hx & _ & Hval).
  rewrite H0 in Hx. injection Hx as <-.
  rewrite (sum_over_ext _ _ (λ _, 1 / len corpus)).
  - rewrite sum_over_const, length_keys. fold (len corpus).
    apply len_nonzero in Hne. by field.
  - intros p Hp%elem_of_keys. by rewrite (rank_of_Some _ _ _ (Hval p Hp)).
Qed.

Lemma adopted_total (corpus : graph) (d : Q) (k : nat) (x : ranks) :
  corpus ≠ ∅ → closed_universe corpus →
  adopted corpus d k = Ok x → sum_over (keys corpus) (rank_of x) == 1.
Proof.
  intros Hne Hclosed. revert x. induction k as [|k IH]; intros x; simpl.
  { by apply initial_rank_total. }
  destruct (adopted corpus d k) as [y|] eqn:Hy; [|done]. simpl. intros Hx.
  destruct (compute_round_spec corpus d y (adopted_dom corpus d k y Hy))
    as (x' & Hx' & _ & Hspec).
  rewrite Hx in Hx'. injection Hx' as <-.
  rewrite (sum_over_ext _ _ (spec_new_rank corpus d (rank_of y))); last first.
  { intros p Hp%elem_of_keys. by apply Hspec. }
  rewrite spec_new_rank_total, (IH y) by done. ring.
Qed.

Lemma Qsum_values_dom (corpus : graph) (x : ranks) :
  dom x = dom corpus → Qsum (values x) == sum_over (keys corpus) (rank_of x).
Proof.
  intros Hdom. rewrite Qsum_values_rank_of.
  apply sum_over_Permutation. by apply keys_Permutation.
Qed.

(** X6.  In exact arithmetic, on a non-empty closed graph and for a damping
    factor in [[0,1]], every mapping a round starts from has total rank 1,
    and the round hands on what it was given: a round started from total
    [S] ends with total [(1 - d) + d * S], which is 1 again.  (The program
    computes in floats, which follow this law up to rounding; its final
    division by the total is what absorbs the rounding.) *)
Theorem adopted_ranks_total (corpus : graph) (d : Q) (k : nat) (x x' : ranks) :
  corpus ≠ ∅ → closed_universe corpus → 0 <= d → d <= 1 →
  adopted corpus d k = Ok x →
  compute_round corpus d (len corpus) x = Ok x' →
  Qsum (values x) == 1 ∧
  Qsum (values x') == (1 - d) + d * Qsum (values x) ∧
  Qsum (values x') == 1.
Proof.
  intros Hne Hclosed _ _ Hk Hround.
  pose proof (adopted_dom corpus d k x Hk) as Hdom.
  destruct (compute_round_spec corpus d x Hdom) as (y & Hy & Hdomy & Hspec).
  rewrite Hround in Hy. injection Hy as <-.
  assert (Qsum (values x) == 1) as Hsum.
  { rewrite (Qsum_values_dom corpus) by done. by eapply adopted_total. }
  assert (Qsum (values x') == (1 - d) + d * Qsum (values x)) as Hstep.
  { rewrite !(Qsum_values_dom corpus) by done.
    rewrite (sum_over_ext _ _ (spec_new_rank corpus d (rank_of x))); last first.
    { intros p Hp%elem_of_keys. by apply Hspec. }
    by apply spec_new_rank_total. }
  split; [done|]. split; [done|]. rewrite Hstep, Hsum. ring.
Qed.

Lemma adopted_ranks_total_witness :
  dead_end ≠ ∅ ∧ closed_universe dead_end ∧ 0 <= 85 # 100 ∧ 85 # 100 <= 1 ∧
  adopted dead_end (85 # 100) 2
    = Ok (returned (Some (adopted dead_end (85 # 100) 2))) ∧
  compute_round dead_end (85 # 100) (len dead_end)
      (returned (Some (adopted dead_end (85 # 100) 2)))
    = Ok (returned (Some (adopted dead_end (85 # 100) 3))) ∧
  Qsum (values (returned (Some (adopted dead_end (85 # 100) 2)))) == 1 ∧
  Qsum (values (returned (Some (adopted dead_end (85 # 100) 3))))
    == (1 - (85 # 100))
       + (85 # 100) * Qsum (values (returned (Some (adopted dead_end (85 # 100) 2)))) ∧
  Qsum (values (returned (Some (adopted dead_end (85 # 100) 3)))) == 1.
Proof.
  assert (dead_end ≠ ∅) as H1 by (by vm_compute).
  assert (closed_universe dead_end) as H2.
  { change (map_Forall (λ _ links, links ⊆ dom dead_end) dead_end).
    apply (bool_decide_unpack _). by vm_compute. }
  assert (0 <= 85 # 100) as H3 by (by vm_compute).
  assert (85 # 100 <= 1) as H4 by (by vm_compute).
  assert (adopted dead_end (85 # 100) 2
          = Ok (returned (Some (adopted dead_end (85 # 100) 2)))) as H5
    by (vm_compute; reflexivity).
  assert (compute_round dead_end (85 # 100) (len dead_end)
            (returned (Some (adopted dead_end (85 # 100) 2)))
          = Ok (returned (Some (adopted dead_end (85 # 100) 3)))) as H6
    by (vm_compute; reflexivity).
  split; [exact H1|]. split; [exact H2|]. split; [exact H3|]. split; [exact H4|].
  split; [exact H5|]. split; [exact H6|].
  exact (adopted_ranks_total dead_end (85 # 100) 2 _ _ H1 H2 H3 H4 H5 H6).
Defined.


(** ** How the rounds converge *)





Lemma spec_new_rank_lower_bound (corpus : graph) (d : Q) (PR : string → Q) (p : string) :
  corpus ≠ ∅ → 0 <= d →
  (∀ q, q ∈ dom corpus → 0 <= PR q) →
  (1 - d) / len corpus <= spec_new_rank corpus d PR p.
Proof.
  intros Hne Hd HPR. rewrite spec_new_rank_weight.
  assert (0 <= sum_over (keys corpus) (λ q, weight corpus p q * PR q)).
  { apply sum_over_nonneg. intros q Hq%elem_of_keys.
    apply Qmult_le_0_compat; [apply weight_nonneg|by apply HPR]. }
  nra.
Qed.

Lemma adopted_lower_bound (corpus : graph) (d : Q) (k : nat) (x : ranks) :
  corpus ≠ ∅ → 0 <= d → d <= 1 →
  adopted corpus d k = Ok x →
  ∀ p, p ∈ dom corpus → (1 - d) / len corpus <= rank_of x p.
Proof.
  intros Hne Hd0 Hd1. pose proof (len_pos corpus Hne) as HN.
  revert x. induction k as [|k IH]; intros x; simpl.
  - destruct (initial_rank_spec corpus) as (x0 & -> & _ & Hval).
    intros [= <-] p Hp. rewrite (rank_of_Some _ _ _ (Hval p Hp)).
    apply Qle_shift_div_l; [done|].
    assert ((1 - d) / len corpus * len corpus == 1 - d) as -> by (field; lra). lra.
  - destruct (adopted corpus d k) as [y|] eqn:Hy; [|done]. simpl. intros Hx p Hp.
    destruct (compute_round_spec corpus d y (adopted_dom corpus d k y Hy))
      as (x' & Hx' & _ & Hspec).
    rewrite Hx in Hx'. injection Hx' as <-. rewrite (Hspec p Hp).
    apply spec_new_rank_lower_bound; [done..|].
    intros q Hq. eapply Qle_trans; [|by apply (IH y)].
    apply Qle_shift_div_l; [done|]. lra.
Qed.

(** X9.  On a non-empty closed graph and with a damping factor in [[0,1]],
    every page is returned at least the share [(1-d)/N] that a random jump
    gives it, and all ranks lie in [[0,1]]. *)
Theorem iterate_pagerank_rank_bounds (corpus : graph) (d : Q) (fuel : nat) (r : ranks) :
  corpus ≠ ∅ → closed_universe corpus → 0 <= d → d <= 1 →
  iterate_pagerank fuel corpus d = Some (Ok r) →
  ∀ p, p ∈ dom corpus →
    (1 - d) / len corpus <= rank_of r p ∧ 0 <= rank_of r p ∧ rank_of r p <= 1.
Proof.
  intros Hne Hclosed Hd0 Hd1 Hrun p Hp.
  destruct (iterate_pagerank_inv corpus d fuel (Ok r) Hrun)
    as (k & last & new_rank & Hk & _ & _ & Hn).
  pose proof (adopted_dom corpus d k last Hk) as Hdom.
  pose proof (adopted_total corpus d k last Hne Hclosed Hk) as Htotal.
  assert (Qsum (values last) == 1) as Hsum.
  { by rewrite (Qsum_values_dom corpus). }
  rewrite normalize_spec in Hn by lra. injection Hn as ->.
  assert (rank_of ((λ v, v / Qsum (values last)) <$> last) p == rank_of last p) as ->.
  { unfold rank_of. rewrite lookup_fmap.
    destruct (last !! p) as [v|]; simpl; [|done]. rewrite Hsum. field. }
  pose proof (adopted_lower_bound corpus d k last Hne Hd0 Hd1 Hk) as Hlow.
  pose proof (len_pos corpus Hne) as HN.
  assert (0 <= (1 - d) / len corpus) as Hbase.
  { apply Qle_shift_div_l; [done|]. lra. }
  split; [by apply Hlow|]. split; [specialize (Hlow p Hp); lra|].
  rewrite <- Htotal.
  apply (sum_over_elem_le (keys corpus) (rank_of last)).
  - intros q Hq%elem_of_keys. specialize (Hlow q Hq). lra.
  - by apply elem_of_keys.
Qed.

Lemma iterate_pagerank_rank_bounds_witness :
  dead_end ≠ ∅ ∧ closed_universe dead_end ∧ 0 <= 85 # 100 ∧ 85 # 100 <= 1 ∧
  iterate_pagerank 8 dead_end (85 # 100)
    = Some (Ok (returned (iterate_pagerank 8 dead_end (85 # 100)))) ∧
  ∀ p, p ∈ dom dead_end →
    (1 - (85 # 100)) / len dead_end
      <= rank_of (returned (iterate_pagerank 8 dead_end (85 # 100))) p ∧
    0 <= rank_of (returned (iterate_pagerank 8 dead_end (85 # 100))) p ∧
    rank_of (returned (iterate_pagerank 8 dead_end (85 # 100))) p <= 1.
Proof.
  assert (dead_end ≠ ∅) as H1 by (by vm_compute).
  assert (closed_universe dead_end) as H2.
  { change (map_Forall (λ _ links, links ⊆ dom dead_end) dead_end).
    apply (bool_decide_unpack _). by vm_compute. }
  assert (0 <= 85 # 100) as H3 by (by vm_compute).
  assert (85 # 100 <= 1) as H4 by (by vm_compute).
  assert (iterate_pagerank 8 dead_end (85 # 100)
          = Some (Ok (returned (iterate_pagerank 8 dead_end (85 # 100))))) as H5
    by (vm_compute; reflexivity).
  split; [exact H1|]. split; [exact H2|]. split; [exact H3|].
  split; [exact H4|]. split; [exact H5|].
  exact (iterate_pagerank_rank_bounds dead_end (85 # 100) 8 _ H1 H2 H3 H4 H5).
Defined.


(** ** Graphs on which the uniform ranks are the answer *)

(** When a round leaves the uniform ranks as they are, the first round
    already passes the convergence test and every page is returned [1/N]. *)
Lemma iterate_pagerank_uniform (corpus : graph) (d : Q) :
  corpus ≠ ∅ →
  (∀ p, p ∈ dom corpus →
     spec_new_rank corpus d (λ _, 1 / len corpus) p == 1 / len corpus) →
  ∃ r, iterate_pagerank 1 corpus d = Some (Ok r) ∧ dom r = dom corpus ∧
       ∀ p, p ∈ dom corpus → rank_of r p == 1 / len corpus.
Proof.
  intros Hne Hfix.
  destruct (initial_rank_spec corpus) as (x0 & H0 & Hdom0 & Hval).
  assert (∀ p, p ∈ dom corpus → rank_of x0 p = 1 / len corpus) as Hx0.
  { intros p Hp. by rewrite (rank_of_Some _ _ _ (Hval p Hp)). }
  destruct (compute_round_spec corpus d x0 Hdom0) as (x1 & Hx1 & Hdom1 & Hspec).
  destruct (loop_body_spec corpus d x0 Hdom0) as (y & Hy & _ & Hstop & _).
  rewrite Hx1 in Hy. injection Hy as <-.
  assert (Qsum (values x0) == 1) as Hsum.
  { rewrite (Qsum_values_dom corpus) by done. by apply initial_rank_total. }
  exists ((λ v, v / Qsum (values x0)) <$> x0).
  unfold iterate_pagerank. rewrite H0. simpl. rewrite Hstop.
  - rewrite normalize_spec by lra. split; [done|].
    split; [by rewrite dom_fmap_L|]. intros p Hp.
    unfold rank_of. rewrite lookup_fmap, (Hval p Hp). simpl. rewrite Hsum. field.
    by apply len_nonzero.
  - intros p Hp. rewrite Hdom0 in Hp.
    rewrite (Hspec p Hp), (Hx0 p Hp).
    rewrite (spec_new_rank_ext corpus d _ (λ _, 1 / len corpus)); last first.
    { intros q Hq. by rewrite (Hx0 q Hq). }
    rewrite (Hfix p Hp). unfold convergence_threshold.
    apply Qabs_case; intros; lra.
Qed.

(** X10.  On a non-empty graph in which every page receives exactly one
    page's worth of rank (a cycle, for one), [iterate_pagerank] stops in
    its first round and returns [1/N] for every page, for every damping
    factor in [[0,1]]. *)
Theorem iterate_pagerank_balanced (corpus : graph) (d : Q) :
  corpus ≠ ∅ → balanced corpus → 0 <= d → d <= 1 →
  ∃ r, iterate_pagerank 1 corpus d = Some (Ok r) ∧ dom r = dom corpus ∧
       ∀ p, p ∈ dom corpus → rank_of r p == 1 / len corpus.
Proof.
  intros Hne Hbal _ _. apply iterate_pagerank_uniform; [done|].
  intros p Hp. rewrite spec_new_rank_weight, sum_over_scal_r, (Hbal p Hp).
  field. by apply len_nonzero.
Qed.

Lemma iterate_pagerank_balanced_witness :
  cycle3 ≠ ∅ ∧ balanced cycle3 ∧ 0 <= 1 ∧ 1 <= 1 ∧
  ∃ r, iterate_pagerank 1 cycle3 1 = Some (Ok r) ∧ dom r = dom cycle3 ∧
       ∀ p, p ∈ dom cycle3 → rank_of r p == 1 / len cycle3.
Proof.
  assert (cycle3 ≠ ∅) as H1 by (by vm_compute).
  assert (balanced cycle3) as H2.
  { intros p Hp%elem_of_keys. vm_compute in Hp.
    repeat (apply elem_of_cons in Hp as [-> | Hp]);
      [..|by apply elem_of_nil in Hp]; by vm_compute. }
  assert (0 <= 1) as H3 by (by vm_compute).
  assert (1 <= 1) as H4 by (by vm_compute).
  split; [exact H1|]. split; [exact H2|]. split; [exact H3|]. split; [exact H4|].
  exact (iterate_pagerank_balanced cycle3 1 H1 H2 H3 H4).
Defined.

(** X11.  With damping 0 the links play no part: on every non-empty graph
    [iterate_pagerank] stops in its first round and returns [1/N] for every
    page. *)
Theorem iterate_pagerank_no_damping (corpus : graph) (d : Q) :
  corpus ≠ ∅ → d == 0 →
  ∃ r, iterate_pagerank 1 corpus d = Some (Ok r) ∧ dom r = dom corpus ∧
       ∀ p, p ∈ dom corpus → rank_of r p == 1 / len corpus.
Proof.
  intros Hne Hd. apply iterate_pagerank_uniform; [done|].
  intros p Hp. unfold spec_new_rank. rewrite Hd. unfold Qdiv. ring.
Qed.

Lemma iterate_pagerank_no_damping_witness :
  flip_flop ≠ ∅ ∧ 0 == 0 ∧
  ∃ r, iterate_pagerank 1 flip_flop 0 = Some (Ok r) ∧ dom r = dom flip_flop ∧
       ∀ p, p ∈ dom flip_flop → rank_of r p == 1 / len flip_flop.
Proof.
  assert (flip_flop ≠ ∅) as H1 by (by vm_compute).
  assert (0 == 0) as H2 by reflexivity.
  split; [exact H1|]. split; [exact H2|].
  exact (iterate_pagerank_no_damping flip_flop 0 H1 H2).
Defined.


(** ** [sample_pagerank] *)

(** A loop whose passes keep an invariant or fail in a known way. *)
Lemma for_in_invariant_raise {A S : Type} (I : nat → S → Prop) (E : exn → Prop)
    (l : list A) (body : S → A → result S) (s : S) :
  I O s →
  (∀ i x s, l !! i = Some x → I i s →
     (∃ s', body s x = Ok s' ∧ I (Datatypes.S i) s') ∨
     (∃ e, body s x = Raise e ∧ E e)) →
  (∃ s', for_in l body s = Ok s' ∧ I (length l) s') ∨
  (∃ e, for_in l body s = Raise e ∧ E e).
Proof.
  revert I s. induction l as [|x l IH]; intros I s H0 Hstep; simpl.
  { left. eauto. }
  destruct (Hstep O x s eq_refl H0) as [(s1 & -> & H1)|(e & -> & He)]; simpl.
  - apply (IH (λ i, I (Datatypes.S i))); [done|].
    intros i y s2 Hy. apply (Hstep (Datatypes.S i)). done.
  - right. eauto.
Qed.

(** [random.choices] on as many weights as candidates: a candidate, or
    [ValueError] when the weights do not add up to more than zero. *)
Lemma random_choices_outcome {A : Type} (population : list A) (weights : list Q) g :
  population ≠ [] → length weights = length population →
  (0 < Qsum weights ∧
   ∃ x, random_choices population weights g = Ok (x, λ i, g (S i)) ∧ x ∈ population)
  ∨ (Qsum weights <= 0 ∧ random_choices population weights g = Raise ValueError).
Proof.
  intros Hne Hlen.
  destruct (Qlt_le_dec 0 (Qsum weights)) as [Hpos|Hneg].
  { left. split; [done|]. by apply random_choices_Ok. }
  right. split; [done|]. unfold random_choices.
  rewrite accumulate_length, Hlen, Nat.eqb_refl. simpl.
  destruct (accumulate_last weights) as (total & -> & Htotal).
  { intros ->. destruct population; [done|discriminate]. }
  destruct (Qle_bool total 0) eqn:E; [done|].
  assert (Qle_bool total 0 = true) as E'; [|congruence].
  apply Qle_bool_iff. lra.
Qed.

Section sample_outcome.
Context (corpus : graph) (d : Q) (g : nat → Q).
Hypothesis corpus_nonempty : corpus ≠ ∅.

Lemma sample_step_outcome i st :
  sample_state corpus g i st →
  (∃ st', sample_step corpus d st = Ok st' ∧ sample_state corpus g (S i) st') ∨
  (∃ e, sample_step corpus d st = Raise e ∧ e = ValueError).
Proof.
  destruct st as [[page_counts page] h].
  intros ((Hdom & Hpage & Hsum) & Hnonneg & Hgen).
  simpl in Hdom, Hpage, Hsum, Hnonneg, Hgen. unfold sample_step.
  assert (is_Some (page_counts !! page)) as [c Hc]
    by (apply elem_of_dom; by rewrite Hdom).
  assert (is_Some (corpus !! page)) as [links Hlinks] by by apply elem_of_dom.
  rewrite (getitem_Some _ _ _ Hc). simpl.
  destruct (transition_model_lookup corpus page links d Hlinks)
    as (model & Hmodel & Hdomm & _).
  rewrite Hmodel. simpl.
  destruct (random_choices_outcome (keys model) (values model) h)
    as [(_ & page' & -> & Hin)|(_ & ->)].
  - apply keys_nonempty. intros ->. apply corpus_nonempty.
    apply dom_empty_iff_L. by rewrite <- Hdomm, dom_empty_L.
  - apply length_values_keys.
  - left. simpl. eexists. split; [done|]. split; [split; [|split]|split]; simpl.
    + rewrite dom_insert_L, subseteq_union_1_L; [done|].
      apply singleton_subseteq_l. by rewrite Hdom.
    + rewrite <- Hdomm. by apply elem_of_keys.
    + rewrite (sum_over_update _ (count_of page_counts) _ page 1).
      * rewrite Hsum, Nat2Z.inj_succ, <- Z.add_1_r, inject_Z_plus. done.
      * apply NoDup_keys.
      * by apply elem_of_keys.
      * intros q _ Hne. unfold count_of. by rewrite lookup_insert_ne.
      * unfold count_of. rewrite lookup_insert_eq, Hc. simpl.
        by rewrite inject_Z_plus.
    + intros p c'. destruct (decide (p = page)) as [->|Hne].
      * rewrite lookup_insert_eq. intros [= <-]. specialize (Hnonneg page c Hc). lia.
      * rewrite lookup_insert_ne by done. apply Hnonneg.
    + intros j. rewrite Hgen. f_equal. lia.
  - right. simpl. eauto.
Qed.

(** What [sample_pagerank] does on a non-empty graph for a positive sample
    count. *)
Lemma sample_pagerank_outcome (n : Z) :
  (0 < n)%Z → 0 <= g O → g O < 1 →
  (∃ page_counts g',
     sample_pagerank corpus d n g
     = Ok ((λ c, inject_Z c / inject_Z n) <$> page_counts, g') ∧
     dom page_counts = dom corpus ∧
     sum_over (keys corpus) (count_of page_counts) == inject_Z n ∧
     (∀ p c, page_counts !! p = Some c → (0 <= c)%Z) ∧
     ∀ j, g' j = g (S (Z.to_nat n) + j)%nat)
  ∨ sample_pagerank corpus d n g = Raise ValueError.
Proof.
  intros Hn H0 H1. unfold sample_pagerank.
  destruct (random_choice_Ok (keys corpus) g) as (page & -> & Hpage);
    [by apply keys_nonempty|done..|]. simpl.
  set (counts0 := foldl (λ acc page, <[page := 0%Z]> acc) ∅ (keys corpus)).
  destruct (for_in_invariant_raise (sample_state corpus g) (λ e, e = ValueError)
    (seq 0 (Z.to_nat n))
    (λ st _, sample_step corpus d st) (counts0, page, λ i, g (S i)))
    as [([[page_counts page'] g'] & -> & (Hdom & _ & Hsum) & Hnonneg & Hgen)
       |(e & -> & ->)].
  - split; [split; [|split]|split]; simpl.
    + unfold counts0.
      rewrite (dom_foldl_insert (λ _, 0%Z)), list_to_set_keys, dom_empty_L.
      apply (right_id_L ∅ (∪)).
    + by apply elem_of_keys.
    + rewrite (sum_over_ext _ _ (λ _, 0)); [by rewrite sum_over_zero|].
      intros p Hp. unfold count_of, counts0.
      by rewrite (lookup_foldl_insert (λ _, 0%Z)), decide_True.
    + intros p c. unfold counts0. rewrite (lookup_foldl_insert (λ _, 0%Z)).
      case_decide; [|by rewrite lookup_empty]. by intros [= <-].
    + done.
  - intros i _ st _. apply sample_step_outcome.
  - left. simpl in Hdom, Hsum, Hnonneg, Hgen. simpl.
    rewrite final_division by lia. simpl.
    rewrite length_seq in Hsum, Hgen. rewrite Z2Nat.id in Hsum by lia.
    by eexists _, _.
  - by right.
Qed.
End sample_outcome.


(** X12.  With draws from [[0,1)], [sample_pagerank] can fail in three ways
    only: with [IndexError] on the empty graph, with [ZeroDivisionError]
    for a sample count of 0, and with [ValueError] (from [random.choices],
    when the weights of a page do not add up to more than zero) for a
    positive sample count; it never raises [KeyError]. *)
Theorem sample_pagerank_errors (corpus : graph) (d : Q) (n : Z) (g : nat → Q)
    (e : exn) :
  valid_rng g →
  sample_pagerank corpus d n g = Raise e →
  (e = IndexError ∧ corpus = ∅) ∨
  (e = ZeroDivisionError ∧ corpus ≠ ∅ ∧ n = 0%Z) ∨
  (e = ValueError ∧ corpus ≠ ∅ ∧ (0 < n)%Z).
Proof.
  intros Hg Hrun. destruct (Hg O) as [H0 H1].
  destruct (decide (corpus = ∅)) as [->|Hne].
  { rewrite sample_pagerank_empty in Hrun. left. split; [congruence|done]. }
  right. destruct (Z.lt_trichotomy n 0) as [Hn|[->|Hn]].
  - destruct (sample_pagerank_negative corpus d n g) as (r & Hr & _); [done..|].
    congruence.
  - rewrite sample_pagerank_zero in Hrun by done. left. split; [congruence|done].
  - destruct (sample_pagerank_outcome corpus d g Hne n)
      as [(page_counts & g' & Hr & _)|Hr]; [done..| |]; [congruence|].
    right. split; [congruence|done].
Qed.

Lemma sample_pagerank_errors_witness :
  valid_rng half_rng ∧
  sample_pagerank dangling 1 1 half_rng = Raise ValueError ∧
  ((ValueError = IndexError ∧ dangling = ∅) ∨
   (ValueError = ZeroDivisionError ∧ dangling ≠ ∅ ∧ 1%Z = 0%Z) ∨
   (ValueError = ValueError ∧ dangling ≠ ∅ ∧ (0 < 1)%Z)).
Proof.
  assert (valid_rng half_rng) as H1 by (intros i; split; by vm_compute).
  assert (sample_pagerank dangling 1 1 half_rng = Raise ValueError) as H2
    by (vm_compute; reflexivity).
  split; [exact H1|]. split; [exact H2|].
  exact (sample_pagerank_errors dangling 1 1 half_rng ValueError H1 H2).
Defined.

(** X13.  Whenever [sample_pagerank] returns for a positive sample count,
    on whatever graph and with whatever damping factor, its result has the
    pages of the corpus as keys, every value lies in [[0,1]], and the values
    add up to 1. *)
Theorem sample_pagerank_result (corpus : graph) (d : Q) (n : Z) (g g' : nat → Q)
    (r : ranks) :
  valid_rng g → (0 < n)%Z →
  sample_pagerank corpus d n g = Ok (r, g') →
  dom r = dom corpus ∧ Qsum (values r) == 1 ∧
  ∀ p v, r !! p = Some v → 0 <= v ∧ v <= 1.
Proof.
  intros Hg Hn Hrun. destruct (Hg O) as [H0 H1].
  assert (corpus ≠ ∅) as Hne.
  { intros ->. by rewrite sample_pagerank_empty in Hrun. }
  destruct (sample_pagerank_outcome corpus d g Hne n)
    as [(page_counts & g'' & Hr & Hdom & Hsum & Hnonneg & _)|Hr];
    [done..| |congruence].
  rewrite Hrun in Hr. injection Hr as -> _.
  assert (0 < inject_Z n) as HnQ.
  { change 0 with (inject_Z 0). rewrite <- Zlt_Qlt. lia. }
  split; [by rewrite dom_fmap_L|]. split.
  - rewrite (Qsum_values _ (λ p, count_of page_counts p * / inject_Z n)).
    + rewrite sum_over_scal_r.
      rewrite (sum_over_Permutation _ (keys corpus)); last first.
      { apply keys_Permutation. by rewrite dom_fmap_L. }
      rewrite Hsum. field. lra.
    + intros p v. rewrite lookup_fmap. unfold count_of.
      destruct (page_counts !! p); [|done]. by intros [= <-].
  - intros p v. rewrite lookup_fmap.
    destruct (page_counts !! p) as [c|] eqn:Hc; [|done]. intros [= <-].
    assert (0 <= inject_Z c) as Hc0.
    { change 0 with (inject_Z 0). rewrite <- Zle_Qle. by apply (Hnonneg p). }
    assert (inject_Z c <= inject_Z n) as Hcn.
    { rewrite <- Hsum.
      assert (inject_Z c = count_of page_counts p) as ->
        by (unfold count_of; by rewrite Hc).
      apply (sum_over_elem_le (keys corpus) (count_of page_counts)).
      - intros q _. unfold count_of. change 0 with (inject_Z 0).
        rewrite <- Zle_Qle. destruct (page_counts !! q) as [c'|] eqn:Hq; [|done].
        by apply (Hnonneg q).
      - apply elem_of_keys. rewrite <- Hdom. apply elem_of_dom. eauto. }
    split.
    + apply Qle_shift_div_l; [done|]. lra.
    + apply Qle_shift_div_r; [done|]. lra.
Qed.

Lemma sample_pagerank_result_witness :
  valid_rng half_rng ∧ (0 < 5)%Z ∧
  sample_pagerank dead_end (85 # 100) 5 half_rng
    = Ok ((sampled (sample_pagerank dead_end (85 # 100) 5 half_rng)).1,
          (sampled (sample_pagerank dead_end (85 # 100) 5 half_rng)).2) ∧
  dom (sampled (sample_pagerank dead_end (85 # 100) 5 half_rng)).1 = dom dead_end ∧
  Qsum (values (sampled (sample_pagerank dead_end (85 # 100) 5 half_rng)).1) == 1 ∧
  ∀ p v, (sampled (sample_pagerank dead_end (85 # 100) 5 half_rng)).1 !! p = Some v → 0 <= v ∧ v <= 1.
Proof.
  assert (valid_rng half_rng) as H1 by (intros i; split; by vm_compute).
  assert (0 < 5)%Z as H2 by lia.
  assert (sample_pagerank dead_end (85 # 100) 5 half_rng
    = Ok ((sampled (sample_pagerank dead_end (85 # 100) 5 half_rng)).1,
          (sampled (sample_pagerank dead_end (85 # 100) 5 half_rng)).2)) as H3 by (vm_compute; reflexivity).
  split; [exact H1|]. split; [exact H2|]. split; [exact H3|].
  exact (sample_pagerank_result dead_end (85 # 100) 5 half_rng _ _ H1 H2 H3).
Defined.

(** X15.  On a non-empty closed graph [sample_pagerank] returns for every
    damping factor in [[0,1]] and every positive sample count: the weights
    of every page add up to 1, so [random.choices] accepts them. *)
Theorem sample_pagerank_closed (corpus : graph) (d : Q) (n : Z) (g : nat → Q) :
  corpus ≠ ∅ → closed_universe corpus → 0 <= d → d <= 1 →
  valid_rng g → (0 < n)%Z →
  ∃ r g', sample_pagerank corpus d n g = Ok (r, g') ∧
          dom r = dom corpus ∧ Qsum (values r) == 1.
Proof.
  intros Hne Hclosed _ _ Hg Hn. destruct (Hg O) as [H0 H1].
  destruct (sample_pagerank_returns corpus d Hne) with (n := n) (g := g)
    as (page_counts & g' & Hrun & Hdom & _ & Hsum); [|done..|].
  - intros p links Hp. rewrite transition_value_sum_closed; [done..|].
    by apply (Hclosed p).
  - eexists _, g'. split; [exact Hrun|]. split; [by rewrite dom_fmap_L|done].
Qed.

Lemma sample_pagerank_closed_witness :
  flip_flop ≠ ∅ ∧ closed_universe flip_flop ∧ 0 <= 1 ∧ 1 <= 1 ∧
  valid_rng half_rng ∧ (0 < 5)%Z ∧
  ∃ r g', sample_pagerank flip_flop 1 5 half_rng = Ok (r, g') ∧
          dom r = dom flip_flop ∧ Qsum (values r) == 1.
Proof.
  assert (flip_flop ≠ ∅) as H1 by (by vm_compute).
  assert (closed_universe flip_flop) as H2.
  { change (map_Forall (λ _ links, links ⊆ dom flip_flop) flip_flop).
    apply (bool_decide_unpack _). by vm_compute. }
  assert (0 <= 1) as H3 by (by vm_compute).
  assert (1 <= 1) as H4 by (by vm_compute).
  assert (valid_rng half_rng) as H5 by (intros i; split; by vm_compute).
  assert (0 < 5)%Z as H6 by lia.
  split; [exact H1|]. split; [exact H2|]. split; [exact H3|]. split; [exact H4|].
  split; [exact H5|]. split; [exact H6|].
  exact (sample_pagerank_closed flip_flop 1 5 half_rng H1 H2 H3 H4 H5 H6).
Defined.


(** ** [crawl] *)

Lemma lookup_foldl_update {V : Type} (f : V → V) (l : list string)
    (m : gmap string V) (p : string) :
  NoDup l →
  foldl (λ s x, match s !! x with Some v => <[x := f v]> s | None => s end) m l !! p
  = if decide (p ∈ l) then f <$> m !! p else m !! p.
Proof.
  intros Hl. revert m. induction Hl as [|x l Hx _ IH]; intros m; [done|].
  cbn [foldl]. rewrite IH.
  assert ((match m !! x with Some v => <[x := f v]> m | None => m end) !! p
          = if decide (p = x) then f <$> m !! p else m !! p) as Hstep.
  { destruct (decide (p = x)) as [->|Hne].
    - destruct (m !! x) eqn:E; [by rewrite lookup_insert_eq|by rewrite E].
    - destruct (m !! x); [by rewrite lookup_insert_ne|done]. }
  rewrite Hstep.
  destruct (decide (p = x)) as [->|Hne].
  - rewrite (decide_False (P := x ∈ l)) by done.
    by rewrite (decide_True (P := x ∈ x :: l)) by left.
  - destruct (decide (p ∈ l)) as [Hin|Hin].
    + by rewrite (decide_True (P := p ∈ x :: l)) by by right.
    + rewrite (decide_False (P := p ∈ x :: l)); [done|].
      rewrite elem_of_cons. tauto.
Qed.

Section crawl_result.
Variable findall : string → list string.

(** [crawl] never fails on a directory it can read, and its second loop
    intersects every link set with the pages found by the first. *)
Lemma crawl_first_pass (directory : list (string * string)) :
  crawl findall directory
  = Ok ((λ links, filter (λ link, link ∈ dom (first_pass findall directory)) links)
        <$> first_pass findall directory).
Proof.
  unfold crawl.
  rewrite (for_in_foldl (λ (pages : graph) fc,
    if negb (endswith fc.1 ".html") then pages
    else <[fc.1 := list_to_set (findall fc.2) ∖ {[fc.1]}]> pages)); last first.
  { intros pages [filename contents] _. simpl.
    by destruct (endswith filename ".html"). }
  fold (first_pass findall directory). simpl.
  set (pages0 := first_pass findall directory).
  set (g := λ (s : graph) x,
         match s !! x with
         | Some links => <[x := filter (λ link, link ∈ dom pages0) links]> s
         | None => s
         end).
  match goal with |- for_in ?l ?body ?s = _ =>
    destruct (for_in_foldl_inv (λ s : graph, dom s = dom pages0) g l body s)
      as [-> _]
  end.
  - done.
  - intros s x Hs Hx%elem_of_keys.
    assert (is_Some (s !! x)) as [links Hlinks] by (apply elem_of_dom; by rewrite Hs).
    unfold g. rewrite (getitem_Some _ _ _ Hlinks), Hlinks, Hs. simpl.
    split; [done|].
    rewrite dom_insert_L, subseteq_union_1_L; [done|].
    apply singleton_subseteq_l, elem_of_dom. eauto.
  - f_equal. apply map_eq. intros p. unfold g.
    rewrite (lookup_foldl_update (λ links, filter (λ link, link ∈ dom pages0) links))
      by apply NoDup_keys.
    rewrite lookup_fmap. destruct (decide (p ∈ keys pages0)) as [|Hp]; [done|].
    rewrite elem_of_keys in Hp. apply not_elem_of_dom in Hp. by rewrite Hp.
Qed.

Lemma dom_first_pass (directory : list (string * string)) :
  dom (first_pass findall directory) = html_names directory.
Proof.
  unfold first_pass, html_names.
  assert (∀ (l : list (string * string)) (m : graph),
    dom (foldl (λ pages fc,
           if negb (endswith fc.1 ".html") then pages
           else <[fc.1 := list_to_set (findall fc.2) ∖ {[fc.1]}]> pages) m l)
    = list_to_set (filter (λ name, endswith name ".html" = true) (l.*1)) ∪ dom m)
    as H.
  { induction l as [|[f c] l IH]; intros m.
    - simpl. by rewrite (left_id_L ∅ (∪)).
    - cbn [foldl]. rewrite IH, fmap_cons, filter_cons. cbn [fst snd].
      destruct (decide (endswith f ".html" = true)) as [E|E].
      + rewrite E. cbn [negb]. rewrite dom_insert_L, list_to_set_cons.
        apply set_eq. intros p. rewrite !elem_of_union. tauto.
      + apply not_true_is_false in E. by rewrite E. }
  rewrite H, dom_empty_L. apply (right_id_L ∅ (∪)).
Qed.

(** With one entry per file name, the first loop keeps for every page the
    links found in its own file. *)
Lemma lookup_first_pass (directory : list (string * string)) (f c : string) :
  NoDup (directory.*1) → (f, c) ∈ directory → endswith f ".html" = true →
  first_pass findall directory !! f = Some (list_to_set (findall c) ∖ {[f]}).
Proof.
  unfold first_pass.
  assert (∀ (l : list (string * string)) (m : graph),
    NoDup (l.*1) → (f, c) ∈ l →
    foldl (λ pages fc,
        if negb (endswith fc.1 ".html") then pages
        else <[fc.1 := list_to_set (findall fc.2) ∖ {[fc.1]}]> pages) m l !! f
    = Some (list_to_set (findall c) ∖ {[f]}) ∨ endswith f ".html" = false) as H.
  { induction l as [|[f' c'] l IH]; intros m Hnd Hin.
    { by apply elem_of_nil in Hin. }
    rewrite fmap_cons in Hnd. apply NoDup_cons in Hnd as [Hf' Hnd].
    cbn [foldl]. apply elem_of_cons in Hin as [[= <- <-]|Hin]; [|by apply IH].
    simpl. destruct (endswith f ".html") eqn:E; [|by right]. left. simpl.
    assert (∀ (k : list (string * string)) (m' : graph),
      f ∉ k.*1 →
      foldl (λ pages fc,
          if negb (endswith fc.1 ".html") then pages
          else <[fc.1 := list_to_set (findall fc.2) ∖ {[fc.1]}]> pages) m' k !! f
      = m' !! f) as Hkeep.
    { clear. induction k as [|[f'' c''] k IHk]; intros m' Hnot; [done|].
      rewrite fmap_cons, not_elem_of_cons in Hnot. destruct Hnot as [Hne Hnot].
      cbn [foldl]. rewrite IHk by done. simpl in *.
      destruct (endswith f'' ".html"); simpl; [|done].
      by rewrite lookup_insert_ne. }
    rewrite Hkeep by done. apply lookup_insert_eq. }
  intros Hnd Hin E. destruct (H directory ∅ Hnd Hin) as [?|?]; [done|congruence].
Qed.

Lemma crawl_html_names (directory : list (string * string)) :
  ∃ pages, crawl findall directory = Ok pages ∧ dom pages = html_names directory.
Proof.
  eexists. split; [apply crawl_first_pass|].
  by rewrite dom_fmap_L, dom_first_pass.
Qed.
End crawl_result.

(** [endswith] is what its name says. *)
Lemma substring_all (s : string) : String.substring 0 (String.length s) s = s.
Proof. induction s as [|a s IH]; simpl; [done|]. by rewrite IH. Qed.

Lemma substring_append_suffix (s1 s2 : string) :
  String.substring (String.length s1) (String.length s2) (s1 +:+ s2) = s2.
Proof. induction s1 as [|a s1 IH]; simpl; [apply substring_all|done]. Qed.

Lemma length_append (s1 s2 : string) :
  String.length (s1 +:+ s2) = (String.length s1 + String.length s2)%nat.
Proof. induction s1 as [|a s1 IH]; simpl; [done|]. by rewrite IH. Qed.

Lemma substring_split (s : string) (i : nat) :
  (i ≤ String.length s)%nat →
  s = (String.substring 0 i s +:+ String.substring i (String.length s - i) s)%string.
Proof.
  revert i. induction s as [|a s IH]; intros [|i] Hi; simpl in *; try lia.
  - done.
  - by rewrite substring_all.
  - change (String a s = String a (String.substring 0 i s
                +:+ String.substring i (String.length s - i) s)).
    f_equal. apply IH. lia.
Qed.

Lemma endswith_spec (s suffix : string) :
  endswith s suffix = true ↔ ∃ stem, s = (stem +:+ suffix)%string.
Proof.
  unfold endswith. rewrite andb_true_iff, Nat.leb_le, String.eqb_eq. split.
  - intros [Hle Hsub].
    exists (String.substring 0 (String.length s - String.length suffix) s).
    pose proof (substring_split s (String.length s - String.length suffix)) as H.
    replace (String.length s - (String.length s - String.length suffix))%nat
      with (String.length suffix) in H by lia.
    rewrite Hsub in H. apply H. lia.
  - intros [stem ->]. rewrite length_append. split; [lia|].
    replace (String.length stem + String.length suffix - String.length suffix)%nat
      with (String.length stem) by lia.
    apply substring_append_suffix.
Qed.

(** X16.  The pages of the graph [crawl] returns are exactly the file names
    of the directory that end in [.html]: other files are skipped, and a
    page is kept whether it has links or not. *)
Theorem crawl_pages (findall : string → list string)
    (directory : list (string * string)) :
  ∃ pages, crawl findall directory = Ok pages ∧
    ∀ name, name ∈ dom pages
            ↔ name ∈ directory.*1 ∧ ∃ stem, name = (stem +:+ ".html")%string.
Proof.
  destruct (crawl_html_names findall directory) as (pages & Hrun & Hdom).
  exists pages. split; [done|]. intros name.
  rewrite Hdom. unfold html_names.
  rewrite elem_of_list_to_set, list_elem_of_filter, endswith_spec. tauto.
Qed.

(** X17.  When every file name occurs once in the directory, the links of a
    page are the targets found in its file that are pages of the corpus,
    the page itself left out. *)
Theorem crawl_links (findall : string → list string)
    (directory : list (string * string)) (filename contents : string) :
  NoDup (directory.*1) → (filename, contents) ∈ directory →
  endswith filename ".html" = true →
  ∃ pages links, crawl findall directory = Ok pages ∧
    pages !! filename = Some links ∧
    ∀ link, link ∈ links
            ↔ link ∈ findall contents ∧ link ≠ filename ∧ link ∈ dom pages.
Proof.
  intros Hnd Hin E. eexists _, _. split; [apply crawl_first_pass|]. split.
  - rewrite lookup_fmap, (lookup_first_pass findall directory filename contents)
      by done. done.
  - intros link. rewrite dom_fmap_L, elem_of_filter, elem_of_difference,
      elem_of_list_to_set, elem_of_singleton. tauto.
Qed.

Lemma crawl_links_witness :
  NoDup (toy_directory.*1) ∧ ("b.html", "a.html c.html b.html") ∈ toy_directory ∧
  endswith "b.html" ".html" = true ∧
  ∃ pages links, crawl toy_findall toy_directory = Ok pages ∧
    pages !! "b.html" = Some links ∧
    ∀ link, link ∈ links
            ↔ link ∈ toy_findall "a.html c.html b.html" ∧ link ≠ "b.html"
              ∧ link ∈ dom pages.
Proof.
  assert (NoDup (toy_directory.*1)) as H1.
  { apply (bool_decide_unpack _). by vm_compute. }
  assert (("b.html", "a.html c.html b.html") ∈ toy_directory) as H2.
  { apply (bool_decide_unpack _). by vm_compute. }
  assert (endswith "b.html" ".html" = true) as H3 by reflexivity.
  split; [exact H1|]. split; [exact H2|]. split; [exact H3|].
  exact (crawl_links toy_findall toy_directory "b.html" "a.html c.html b.html"
           H1 H2 H3).
Defined.


(** ** [main] *)

Lemma sorted_Permutation {V : Type} (m : gmap string V) : sorted m ≡ₚ keys m.
Proof. apply merge_sort_Permutation. Qed.

Lemma Sorted_sorted {V : Type} (m : gmap string V) : Sorted String.le (sorted m).
Proof. apply (Sorted_merge_sort String.le). Qed.

Lemma elem_of_sorted {V : Type} (m : gmap string V) (p : string) :
  p ∈ sorted m ↔ p ∈ dom m.
Proof. by rewrite sorted_Permutation, elem_of_keys. Qed.

(** Dicts with the same keys are listed in the same order. *)
Lemma sorted_same_dom {V W : Type} (m1 : gmap string V) (m2 : gmap string W) :
  dom m1 = dom m2 → sorted m1 = sorted m2.
Proof.
  intros Hdom. apply (Sorted_unique String.le); [apply Sorted_sorted..|].
  rewrite !sorted_Permutation. by apply keys_Permutation.
Qed.

Lemma header_sampling :
  ("PageRank Results from Sampling (n = " +:+ pretty SAMPLES +:+ ")")%string
  = "PageRank Results from Sampling (n = 10000)"%string.
Proof. by vm_compute. Qed.

Lemma print_ranks_Ok (format_4f : Q → string) (ranks : ranks)
    (pages stdout : list string) :
  (∀ p, p ∈ pages → p ∈ dom ranks) →
  print_ranks format_4f ranks pages stdout
  = (stdout ++ (row format_4f ranks <$> pages), None).
Proof.
  revert stdout. induction pages as [|p pages IH]; intros stdout Hin; simpl.
  { by rewrite (right_id_L [] (++)). }
  assert (is_Some (ranks !! p)) as [v Hv] by (apply elem_of_dom, Hin; left).
  rewrite (getitem_Some _ _ _ Hv), IH by (intros; apply Hin; by right).
  unfold row. rewrite (rank_of_Some _ _ _ Hv). by rewrite <- (assoc_L (++)).
Qed.

Section main_correct.
Variable findall : string → list string.
Variable filesystem : string → list (string * string).
Variable format_4f : Q → string.

(** X19.  On a directory without any file ending in [.html] the program
    ends with an uncaught [IndexError], raised by [random.choice] on the
    empty corpus, and prints nothing. *)
Theorem main_no_pages (fuel : nat) (prog directory : string) (g : nat → Q) :
  (∀ name, name ∈ (filesystem directory).*1 → endswith name ".html" = false) →
  main findall filesystem format_4f fuel [prog; directory] g
  = Some ([], Uncaught IndexError).
Proof.
  intros Hnone. unfold main. simpl.
  destruct (crawl_html_names findall (filesystem directory)) as (corpus & -> & Hdom).
  assert (corpus = ∅) as ->.
  { apply dom_empty_iff_L. rewrite Hdom. unfold html_names.
    apply set_eq. intros name.
    rewrite elem_of_list_to_set, list_elem_of_filter. split; [|by intros ?%not_elem_of_empty].
    intros [E Hin]. rewrite (Hnone name Hin) in E. done. }
  by rewrite sample_pagerank_empty.
Qed.

(** X20.  On a directory all of whose entries are files that can be read
    as text (a directory is given here as its file names with the text
    read from them, so one that holds an entry [open] or [read] fails on
    is not covered) and of which at least one ends in [.html], and with
    draws from [[0,1)], the program runs to its end: it prints the
    sampling header, one line per page in ascending order of the names,
    the iteration header and again one line per page, each estimator
    having returned ranks for exactly the pages of the corpus. *)
Theorem main_prints (prog directory name contents : string) (g : nat → Q) :
  (name, contents) ∈ filesystem directory → endswith name ".html" = true →
  valid_rng g →
  ∃ fuel corpus sampling g' iteration,
    crawl findall (filesystem directory) = Ok corpus ∧
    sample_pagerank corpus DAMPING SAMPLES g = Ok (sampling, g') ∧
    iterate_pagerank fuel corpus DAMPING = Some (Ok iteration) ∧
    dom sampling = dom corpus ∧ dom iteration = dom corpus ∧
    Sorted String.le (sorted corpus) ∧ NoDup (sorted corpus) ∧
    (∀ p, p ∈ sorted corpus ↔ p ∈ dom corpus) ∧
    main findall filesystem format_4f fuel [prog; directory] g
    = Some ("PageRank Results from Sampling (n = 10000)"%string
              :: (row format_4f sampling <$> sorted corpus)
            ++ "PageRank Results from Iteration"%string
              :: (row format_4f iteration <$> sorted corpus),
            Finished).
Proof.
  intros Hin E Hg. destruct (Hg O) as [H0 H1].
  destruct (crawl_invariant findall (filesystem directory))
    as (corpus & Hcrawl & Hclosed & _).
  destruct (crawl_html_names findall (filesystem directory)) as (corpus' & Hc & Hdom).
  rewrite Hcrawl in Hc. injection Hc as <-.
  assert (corpus ≠ ∅) as Hne.
  { intros ->. rewrite dom_empty_L in Hdom.
    assert (name ∈ html_names (filesystem directory)) as Hn; [|by rewrite <- Hdom in Hn].
    unfold html_names. rewrite elem_of_list_to_set, list_elem_of_filter.
    split; [done|]. apply list_elem_of_fmap. by exists (name, contents). }
  destruct (sample_pagerank_returns corpus DAMPING Hne) with (n := SAMPLES) (g := g)
    as (page_counts & g' & Hsample & Hdoms & _); [|done..|].
  { intros p links Hp. rewrite transition_value_sum_closed; [done..|].
    by apply (Hclosed p). }
  destruct (iterate_pagerank_returns corpus DAMPING Hne) as (fuel & r & Hiter & Hdomr & _);
    [done..|].
  set (sampling := (λ c, inject_Z c / inject_Z SAMPLES) <$> page_counts) in *.
  assert (dom sampling = dom corpus) as Hdomsam
    by (unfold sampling; by rewrite dom_fmap_L).
  exists fuel, corpus, sampling, g', r.
  split; [done|]. split; [done|]. split; [done|]. split; [done|]. split; [done|].
  split; [apply Sorted_sorted|]. split.
  { rewrite sorted_Permutation. apply NoDup_keys. }
  split; [apply elem_of_sorted|].
  unfold main. simpl. rewrite Hcrawl, Hsample. rewrite header_sampling.
  rewrite print_ranks_Ok by (intros p; apply elem_of_sorted).
  rewrite Hiter.
  rewrite print_ranks_Ok by (intros p; apply elem_of_sorted).
  rewrite (sorted_same_dom sampling corpus Hdomsam), (sorted_same_dom r corpus Hdomr).
  by rewrite <- (assoc_L (++)).
Qed.
End main_correct.

Lemma main_no_pages_witness :
  (∀ name, name ∈ [("notes.txt", "a.html")%string].*1 →
           endswith name ".html" = false) ∧
  main toy_findall (λ _, [("notes.txt", "a.html")%string]) (λ _, ""%string) 0
    ["pagerank.py"; "corpus"]%string half_rng
  = Some ([], Uncaught IndexError).
Proof.
  assert (∀ name, name ∈ [("notes.txt", "a.html")%string].*1 →
                  endswith name ".html" = false) as H.
  { intros name Hin. simpl in Hin.
    apply elem_of_cons in Hin as [-> | Hin]; [reflexivity|].
    by apply elem_of_nil in Hin. }
  split; [exact H|].
  exact (main_no_pages toy_findall (λ _, [("notes.txt", "a.html")%string])
           (λ _, ""%string) 0 "pagerank.py" "corpus" half_rng H).
Defined.

Lemma main_prints_witness :
  ("a.html", "b.html")%string ∈ toy_directory ∧
  endswith "a.html" ".html" = true ∧ valid_rng half_rng ∧
  ∃ fuel corpus sampling g' iteration,
    crawl toy_findall toy_directory = Ok corpus ∧
    sample_pagerank corpus DAMPING SAMPLES half_rng = Ok (sampling, g') ∧
    iterate_pagerank fuel corpus DAMPING = Some (Ok iteration) ∧
    dom sampling = dom corpus ∧ dom iteration = dom corpus ∧
    Sorted String.le (sorted corpus) ∧ NoDup (sorted corpus) ∧
    (∀ p, p ∈ sorted corpus ↔ p ∈ dom corpus) ∧
    main toy_findall (λ _, toy_directory) (λ _, ""%string) fuel
      ["pagerank.py"; "corpus"]%string half_rng
    = Some ("PageRank Results from Sampling (n = 10000)"%string
              :: (row (λ _, ""%string) sampling <$> sorted corpus)
            ++ "PageRank Results from Iteration"%string
              :: (row (λ _, ""%string) iteration <$> sorted corpus),
            Finished).
Proof.
  assert (("a.html", "b.html")%string ∈ toy_directory) as H1.
  { apply (bool_decide_unpack _). by vm_compute. }
  assert (endswith "a.html" ".html" = true) as H2 by reflexivity.
  assert (valid_rng half_rng) as H3 by (intros i; split; by vm_compute).
  split; [exact H1|]. split; [exact H2|]. split; [exact H3|].
  exact (main_prints toy_findall (λ _, toy_directory) (λ _, ""%string)
           "pagerank.py" "corpus" "a.html" "b.html" half_rng H1 H2 H3).
Defined.


(** ** How the functions fit together *)

(** X21.  On the graph [crawl] builds from a directory of readable files,
    [transition_model] returns for every page, and every damping factor in
    [[0,1]], probabilities that add up to 1 in exact arithmetic: no link
    of a crawled page leaves the corpus. *)
Theorem crawl_then_transition_model (findall : string → list string)
    (directory : list (string * string)) (page contents : string) (d : Q) :
  (page, contents) ∈ directory → endswith page ".html" = true →
  0 <= d → d <= 1 →
  ∃ corpus m, crawl findall directory = Ok corpus ∧
              transition_model corpus page d = Ok m ∧
              dom m = dom corpus ∧ Qsum (values m) == 1.
Proof.
  intros Hin E _ _.
  destruct (crawl_invariant findall directory) as (corpus & Hcrawl & Hclosed & _).
  destruct (crawl_html_names findall directory) as (corpus' & Hc & Hdom).
  rewrite Hcrawl in Hc. injection Hc as <-.
  assert (page ∈ dom corpus) as [links Hp]%elem_of_dom.
  { rewrite Hdom. unfold html_names.
    rewrite elem_of_list_to_set, list_elem_of_filter.
    split; [done|]. apply list_elem_of_fmap. by exists (page, contents). }
  destruct (transition_model_lookup corpus page links d Hp) as (m & Hm & Hdomm & _).
  exists corpus, m. split; [done|]. split; [done|]. split; [done|].
  rewrite (transition_model_total corpus page links d m Hp Hm).
  apply transition_value_sum_closed; [by eapply lookup_nonempty|by apply (Hclosed page)].
Qed.

Lemma crawl_then_transition_model_witness :
  ("a.html", "b.html")%string ∈ toy_directory ∧
  endswith "a.html" ".html" = true ∧ 0 <= 85 # 100 ∧ 85 # 100 <= 1 ∧
  ∃ corpus m, crawl toy_findall toy_directory = Ok corpus ∧
              transition_model corpus "a.html" (85 # 100) = Ok m ∧
              dom m = dom corpus ∧ Qsum (values m) == 1.
Proof.
  assert (("a.html", "b.html")%string ∈ toy_directory) as H1.
  { apply (bool_decide_unpack _). by vm_compute. }
  assert (endswith "a.html" ".html" = true) as H2 by reflexivity.
  assert (0 <= 85 # 100) as H3 by (by vm_compute).
  assert (85 # 100 <= 1) as H4 by (by vm_compute).
  split; [exact H1|]. split; [exact H2|]. split; [exact H3|]. split; [exact H4|].
  exact (crawl_then_transition_model toy_findall toy_directory "a.html" "b.html"
           (85 # 100) H1 H2 H3 H4).
Defined.




